(** * FIFO_python: three circular-buffer queues (src/main.py)

    A shallow embedding of the classes [BufferDynamic], [BufferFixed] and
    [BufferFixedOverwrite] (with its nested [Iterator]), followed by the
    properties of the specification that can be settled on them.

    Python objects are mutable and methods may raise, so every method is a
    computation in a small state-and-exception monad: it takes the object's
    fields and gives back either an exception or a result, together with the
    fields as they are at that moment (an exception does not roll anything
    back). *)

From Stdlib Require Import ZArith Lia.
From stdpp Require Import base decidable numbers option list strings pretty.

Local Open Scope Z_scope.

(** ** Python runtime pieces used by the source *)

(** The exceptions the code can raise: [raise Exception("...")] written in the
    source, and the two built-in ones that list subscripting and [%] raise. *)
Inductive exn : Type :=
  | Exception (msg : string)
  | IndexError
  | ZeroDivisionError.

(** State and exception monad over the fields [St] of [self]. *)
Definition M (St R : Type) : Type := St → (exn + R) * St.

#[global] Instance M_ret {St} : MRet (M St) :=
  λ R (r : R) s, (inr r, s).

#[global] Instance M_bind {St} : MBind (M St) :=
  λ R R' (k : R → M St R') (m : M St R) s,
    match m s with
    | (inr r, s') => k r s'
    | (inl e, s') => (inl e, s')
    end.

Definition raise {St R} (e : exn) : M St R := λ s, (inl e, s).
Definition gets {St R} (f : St → R) : M St R := λ s, (inr (f s), s).
Definition modify {St} (f : St → St) : M St unit := λ s, (inr tt, f s).
Definition lift {St R} (x : exn + R) : M St R := λ s, (x, s).

(** A method call on an object held in a field: [self.__iter.get_in()]. *)
Definition zoom {St Sub R} (get : St → Sub) (set : Sub → St → St)
    (m : M Sub R) : M St R :=
  λ s, let '(r, sub) := m (get s) in (r, set sub s).

(** Subscripts: an index [i] of a list of length [n] names slot [i] when
    [0 <= i < n], slot [n + i] when [-n <= i < 0], and is an [IndexError]
    otherwise. *)
Definition norm_index {V} (l : list V) (i : Z) : option nat :=
  let n := Z.of_nat (length l) in
  if decide (0 ≤ i < n) then Some (Z.to_nat i)
  else if decide (- n ≤ i < 0) then Some (Z.to_nat (n + i))
  else None.

(** [l[i]] *)
Definition getitem {V} (l : list V) (i : Z) : exn + V :=
  match norm_index l i with
  | Some k => match l !! k with Some v => inr v | None => inl IndexError end
  | None => inl IndexError
  end.

(** [l[i] = v] *)
Definition setitem {V} (l : list V) (i : Z) (v : V) : exn + list V :=
  match norm_index l i with
  | Some k => inr (<[k := v]> l)
  | None => inl IndexError
  end.

(** [a % b] on integers: the sign follows the divisor, as [Z.modulo] does. *)
Definition py_mod (a b : Z) : exn + Z :=
  if decide (b = 0) then inl ZeroDivisionError else inr (a `mod` b).

(** [[v] * n]: empty when [n] is not positive. *)
Definition list_mul {V} (v : V) (n : Z) : list V := replicate (Z.to_nat n) v.

(** [repr] of a list, given the items' [repr]. *)
Definition repr_list {V} (repr : V → string) (l : list V) : string :=
  ("[" ++ String.concat ", " (repr <$> l) ++ "]")%string.

(** ** class BufferDynamic *)

Module BufferDynamic.
Section Buffer.
Context {A : Type}.

(** A slot, an argument of [enqueue] and a result of [dequeue] are Python
    values: [None], or an item [Some a]. *)
Record t : Type := mk {
  buffer : list (option A);
  max_size : Z;
  head : Z;
  tail : Z;
  size : Z
}.

Definition set_buffer (v : list (option A)) (s : t) : t :=
  {| buffer := v; max_size := max_size s; head := head s;
     tail := tail s; size := size s |}.
Definition set_head (v : Z) (s : t) : t :=
  {| buffer := buffer s; max_size := max_size s; head := v;
     tail := tail s; size := size s |}.
Definition set_tail (v : Z) (s : t) : t :=
  {| buffer := buffer s; max_size := max_size s; head := head s;
     tail := v; size := size s |}.
Definition set_size (v : Z) (s : t) : t :=
  {| buffer := buffer s; max_size := max_size s; head := head s;
     tail := tail s; size := v |}.

Definition init (max_size : Z) : t :=
  {| buffer := []; max_size := max_size; head := 0; tail := 0; size := 0 |}.

Definition is_empty : M t bool :=
  n ← gets size; mret (bool_decide (n = 0)).

Definition is_full : M t bool :=
  n ← gets size; mx ← gets max_size; mret (bool_decide (n = mx)).

Definition enqueue (item : option A) : M t unit :=
  full ← is_full;
  (if (full : bool) then raise (Exception "Buffer is full") else mret tt);;
  buf ← gets buffer;
  mx ← gets max_size;
  (if decide (Z.of_nat (length buf) < mx) then
     modify (set_buffer (buf ++ [item]))
   else
     tl ← gets tail;
     buf' ← lift (setitem buf tl item);
     modify (set_buffer buf'));;
  tl ← gets tail;
  mx ← gets max_size;
  tl' ← lift (py_mod (tl + 1) mx);
  modify (set_tail tl');;
  n ← gets size;
  modify (set_size (n + 1)).

Definition dequeue : M t (option A) :=
  e ← is_empty;
  (if (e : bool) then raise (Exception "Buffer is empty") else mret tt);;
  buf ← gets buffer;
  h ← gets head;
  item ← lift (getitem buf h);
  buf ← gets buffer;
  h ← gets head;
  buf' ← lift (setitem buf h None);
  modify (set_buffer buf');;
  h ← gets head;
  mx ← gets max_size;
  h' ← lift (py_mod (h + 1) mx);
  modify (set_head h');;
  n ← gets size;
  modify (set_size (n - 1));;
  mret item.

(** The list returned is the object's own list, not a copy. *)
Definition get_buffer : M t (list (option A)) := gets buffer.

End Buffer.
Arguments t : clear implicits.
End BufferDynamic.

(** ** class BufferFixed *)

Module BufferFixed.
Section Buffer.
Context {A : Type}.

Record t : Type := mk {
  buffer : list (option A);
  max_size : Z;
  head : Z;
  tail : Z;
  size : Z
}.

Definition set_buffer (v : list (option A)) (s : t) : t :=
  {| buffer := v; max_size := max_size s; head := head s;
     tail := tail s; size := size s |}.
Definition set_head (v : Z) (s : t) : t :=
  {| buffer := buffer s; max_size := max_size s; head := v;
     tail := tail s; size := size s |}.
Definition set_tail (v : Z) (s : t) : t :=
  {| buffer := buffer s; max_size := max_size s; head := head s;
     tail := v; size := size s |}.
Definition set_size (v : Z) (s : t) : t :=
  {| buffer := buffer s; max_size := max_size s; head := head s;
     tail := tail s; size := v |}.

Definition init (max_size : Z) : t :=
  {| buffer := list_mul None max_size; max_size := max_size;
     head := 0; tail := 0; size := 0 |}.

Definition is_empty : M t bool :=
  n ← gets size; mret (bool_decide (n = 0)).

Definition is_full : M t bool :=
  n ← gets size; mx ← gets max_size; mret (bool_decide (n = mx)).

Definition enqueue (item : option A) : M t unit :=
  full ← is_full;
  (if (full : bool) then raise (Exception "Buffer is full") else mret tt);;
  buf ← gets buffer;
  tl ← gets tail;
  buf' ← lift (setitem buf tl item);
  modify (set_buffer buf');;
  tl ← gets tail;
  mx ← gets max_size;
  tl' ← lift (py_mod (tl + 1) mx);
  modify (set_tail tl');;
  n ← gets size;
  modify (set_size (n + 1)).

Definition dequeue : M t (option A) :=
  e ← is_empty;
  (if (e : bool) then raise (Exception "Buffer is empty") else mret tt);;
  buf ← gets buffer;
  h ← gets head;
  item ← lift (getitem buf h);
  buf ← gets buffer;
  h ← gets head;
  buf' ← lift (setitem buf h None);
  modify (set_buffer buf');;
  h ← gets head;
  mx ← gets max_size;
  h' ← lift (py_mod (h + 1) mx);
  modify (set_head h');;
  n ← gets size;
  modify (set_size (n - 1));;
  mret item.

(** The list returned is the object's own list, not a copy. *)
Definition get_buffer : M t (list (option A)) := gets buffer.

End Buffer.
Arguments t : clear implicits.
End BufferFixed.

(** ** class BufferFixedOverwrite *)

Module BufferFixedOverwrite.

(** *** class Iterator *)
Module Iterator.

Record t : Type := mk {
  max_index : Z;
  in_index : Z;
  out_index : Z
}.

Definition set_in_index (v : Z) (s : t) : t :=
  {| max_index := max_index s; in_index := v; out_index := out_index s |}.
Definition set_out_index (v : Z) (s : t) : t :=
  {| max_index := max_index s; in_index := in_index s; out_index := v |}.

(** [__init__(self, max_index=1)] *)
Definition init (max_index : Z) : t :=
  {| max_index := max_index; in_index := 0; out_index := 0 |}.

Definition get_val : M t string :=
  i ← gets in_index;
  o ← gets out_index;
  mret (pretty i ++ " " ++ pretty o)%string.

Definition get_out : M t Z :=
  index ← gets out_index;
  o ← gets out_index;
  mx ← gets max_index;
  (if decide (o = mx) then modify (set_out_index 0)
   else modify (set_out_index (o + 1)));;
  mret index.

Definition get_in : M t Z :=
  index ← gets in_index;
  i ← gets in_index;
  o ← gets out_index;
  (if decide (i ≠ 0 ∧ i = o) then get_out;; mret tt else mret tt);;
  i ← gets in_index;
  mx ← gets max_index;
  (if decide (i = mx) then modify (set_in_index 0)
   else modify (set_in_index (i + 1)));;
  mret index.

End Iterator.

Section Buffer.
Context {A : Type}.

(** A slot, an argument of [enqueue] and a result of [dequeue] are Python
    values: [None], or an item [Some a]. *)
Record t : Type := mk {
  buffer : list (option A);
  iter : Iterator.t;
  max_size : Z;
  size : Z
}.

Definition set_buffer (v : list (option A)) (s : t) : t :=
  {| buffer := v; iter := iter s; max_size := max_size s; size := size s |}.
Definition set_iter (v : Iterator.t) (s : t) : t :=
  {| buffer := buffer s; iter := v; max_size := max_size s; size := size s |}.
Definition set_size (v : Z) (s : t) : t :=
  {| buffer := buffer s; iter := iter s; max_size := max_size s; size := v |}.

Definition init (max_size : Z) : t :=
  {| buffer := list_mul None max_size;
     iter := Iterator.init (max_size - 1);
     max_size := max_size;
     size := 0 |}.

Definition is_full : M t bool :=
  n ← gets size; mx ← gets max_size; mret (bool_decide (n = mx)).

Definition is_empty : M t bool :=
  n ← gets size; mret (bool_decide (n = 0)).

Definition enqueue (item : option A) : M t unit :=
  buf ← gets buffer;
  i ← zoom iter set_iter Iterator.get_in;
  buf' ← lift (setitem buf i item);
  modify (set_buffer buf');;
  n ← gets size;
  modify (set_size (n + 1)).

Definition dequeue : M t (option A) :=
  e ← is_empty;
  if negb e then
    out_index ← zoom iter set_iter Iterator.get_out;
    buf ← gets buffer;
    element ← lift (getitem buf out_index);
    buf ← gets buffer;
    buf' ← lift (setitem buf out_index None);
    modify (set_buffer buf');;
    n ← gets size;
    modify (set_size (n - 1));;
    mret element
  else mret None.

(** [f'{self.__buffer}  {self.__iter.get_val()} '], for items whose
    [repr] is [repr]. *)
Definition get_buffer (repr : A → string) : M t string :=
  buf ← gets buffer;
  v ← zoom iter set_iter Iterator.get_val;
  mret (repr_list (from_option repr "None") buf ++ "  " ++ v ++ " ")%string.

End Buffer.
Arguments t : clear implicits.

End BufferFixedOverwrite.

(** ** Callers

    The three classes offer the same methods; a caller drives any of them
    through a sequence of calls, catching what a call raises and going on
    with the object as the failed call left it. *)

Inductive op (A : Type) : Type :=
  | Enqueue (item : option A)
  | Dequeue.
Arguments Enqueue {A} item.
Arguments Dequeue {A}.

Class Fifo (A St : Type) : Type := {
  new : Z → St;
  enqueue : option A → M St unit;
  dequeue : M St (option A)
}.

#[global] Instance dynamic_fifo {A} : Fifo A (BufferDynamic.t A) := {|
  new := BufferDynamic.init;
  enqueue := BufferDynamic.enqueue;
  dequeue := BufferDynamic.dequeue
|}.

#[global] Instance fixed_fifo {A} : Fifo A (BufferFixed.t A) := {|
  new := BufferFixed.init;
  enqueue := BufferFixed.enqueue;
  dequeue := BufferFixed.dequeue
|}.

#[global] Instance overwrite_fifo {A} : Fifo A (BufferFixedOverwrite.t A) := {|
  new := BufferFixedOverwrite.init;
  enqueue := BufferFixedOverwrite.enqueue;
  dequeue := BufferFixedOverwrite.dequeue
|}.

Section Callers.
Context {A St : Type} `{!Fifo A St}.

(** One call: what it raised or returned ([enqueue] returns [None], as any
    Python function without a [return] does), and the object afterwards. *)
Definition call (o : op A) (s : St) : (exn + option A) * St :=
  match o with
  | Enqueue item =>
      match enqueue item s with
      | (inr _, s') => (inr None, s')
      | (inl e, s') => (inl e, s')
      end
  | Dequeue => dequeue s
  end.

(** A sequence of calls: the outcome of each, and the final object. *)
Fixpoint run (ops : list (op A)) (s : St) : list (exn + option A) * St :=
  match ops with
  | [] => ([], s)
  | o :: ops' =>
      let '(r, s') := call o s in
      let '(rs, s'') := run ops' s' in
      (r :: rs, s'')
  end.

(** The object before the first call and after each call. *)
Fixpoint trace (ops : list (op A)) (s : St) : list St :=
  match ops with
  | [] => [s]
  | o :: ops' => s :: trace ops' (call o s).2
  end.

(** The outcomes of the [Dequeue] calls alone. *)
Fixpoint dequeued (ops : list (op A)) (rs : list (exn + option A))
    : list (exn + option A) :=
  match ops, rs with
  | Dequeue :: ops', r :: rs' => r :: dequeued ops' rs'
  | Enqueue _ :: ops', _ :: rs' => dequeued ops' rs'
  | _, _ => []
  end.

(** How many [Enqueue] calls returned. *)
Fixpoint enqueued (ops : list (op A)) (rs : list (exn + option A)) : nat :=
  match ops, rs with
  | Enqueue _ :: ops', inr _ :: rs' => S (enqueued ops' rs')
  | _ :: ops', _ :: rs' => enqueued ops' rs'
  | _, _ => 0%nat
  end.

Definition raises (r : exn + option A) : Prop :=
  match r with inl _ => True | inr _ => False end.

End Callers.

(** [enqueue, dequeue, enqueue, dequeue, ...]: one pair for each item. *)
Fixpoint interleaved {A} (xs : list (option A)) : list (op A) :=
  match xs with
  | [] => []
  | x :: xs' => Enqueue x :: Dequeue :: interleaved xs'
  end.

(** The outcomes of [interleaved xs] when every [enqueue] returns and every
    [dequeue] returns the item enqueued just before it. *)
Fixpoint interleaved_fifo {A} (xs : list (option A)) : list (exn + option A) :=
  match xs with
  | [] => []
  | x :: xs' => inr None :: inr x :: interleaved_fifo xs'
  end.

(** ** A bounded queue, as a list

    The oldest item first.  [BufferFixed] and [BufferDynamic] are shown below
    to behave like this list with a bound on its length. *)
Definition queue_call {A} (N : Z) (o : op A) (q : list (option A))
    : (exn + option A) * list (option A) :=
  match o with
  | Enqueue item =>
      if decide (Z.of_nat (length q) = N)
      then (inl (Exception "Buffer is full"), q)
      else (inr None, q ++ [item])
  | Dequeue =>
      match q with
      | [] => (inl (Exception "Buffer is empty"), q)
      | item :: q' => (inr item, q')
      end
  end.

Fixpoint queue_run {A} (N : Z) (ops : list (op A)) (q : list (option A))
    : list (exn + option A) * list (option A) :=
  match ops with
  | [] => ([], q)
  | o :: ops' =>
      let '(r, q') := queue_call N o q in
      let '(rs, q'') := queue_run N ops' q' in
      (r :: rs, q'')
  end.

(** ** What the proofs keep track of *)

Section Representation.
Context {A : Type}.

(** [s] holds the queue [q]: its items sit in consecutive slots of the ring
    from [head] on. *)
Record fixed_rep (N : Z) (q : list (option A)) (s : BufferFixed.t A) : Prop := {
  fixed_max_size : BufferFixed.max_size s = N;
  fixed_size : BufferFixed.size s = Z.of_nat (length q);
  fixed_bound : Z.of_nat (length q) ≤ N;
  fixed_head : 0 ≤ BufferFixed.head s < N;
  fixed_tail :
    BufferFixed.tail s = (BufferFixed.head s + Z.of_nat (length q)) `mod` N;
  fixed_length : Z.of_nat (length (BufferFixed.buffer s)) = N;
  fixed_slots : ∀ (j : nat) item,
    q !! j = Some item →
    BufferFixed.buffer s
      !! Z.to_nat ((BufferFixed.head s + Z.of_nat j) `mod` N) = Some item
}.

(** As for [BufferFixed], but the list is only as long as the number of
    items appended so far: while it is shorter than [N], its end is where
    the next item goes. *)
Record dynamic_rep (N : Z) (q : list (option A)) (s : BufferDynamic.t A)
    : Prop := {
  dynamic_max_size : BufferDynamic.max_size s = N;
  dynamic_size : BufferDynamic.size s = Z.of_nat (length q);
  dynamic_bound : Z.of_nat (length q) ≤ N;
  dynamic_head : 0 ≤ BufferDynamic.head s < N;
  dynamic_tail :
    BufferDynamic.tail s = (BufferDynamic.head s + Z.of_nat (length q)) `mod` N;
  dynamic_length : Z.of_nat (length (BufferDynamic.buffer s)) ≤ N;
  dynamic_growing :
    Z.of_nat (length (BufferDynamic.buffer s)) < N →
    Z.of_nat (length (BufferDynamic.buffer s))
      = BufferDynamic.head s + Z.of_nat (length q);
  dynamic_slots : ∀ (j : nat) item,
    q !! j = Some item →
    BufferDynamic.buffer s
      !! Z.to_nat ((BufferDynamic.head s + Z.of_nat j) `mod` N) = Some item
}.

(** The fields of a BufferFixedOverwrite of capacity [N] that keep the
    subscripts of [enqueue] and [dequeue] inside the list. *)
Record overwrite_wf (N : Z) (s : BufferFixedOverwrite.t A) : Prop := {
  overwrite_max_size : BufferFixedOverwrite.max_size s = N;
  overwrite_length : Z.of_nat (length (BufferFixedOverwrite.buffer s)) = N;
  overwrite_max_index :
    BufferFixedOverwrite.Iterator.max_index (BufferFixedOverwrite.iter s) = N - 1;
  overwrite_in_index :
    0 ≤ BufferFixedOverwrite.Iterator.in_index (BufferFixedOverwrite.iter s) < N;
  overwrite_out_index :
    0 ≤ BufferFixedOverwrite.Iterator.out_index (BufferFixedOverwrite.iter s) < N;
  overwrite_size : 0 ≤ BufferFixedOverwrite.size s
}.

(** A fresh BufferFixedOverwrite of capacity [N] after the items [pre] were
    enqueued, as long as they fit: nothing was read, so the read index is
    still 0. *)
Definition filled (N : Z) (pre : list (option A)) : BufferFixedOverwrite.t A :=
  {| BufferFixedOverwrite.buffer :=
       pre ++ replicate (Z.to_nat N - length pre) None;
     BufferFixedOverwrite.iter :=
       {| BufferFixedOverwrite.Iterator.max_index := N - 1;
          BufferFixedOverwrite.Iterator.in_index := Z.of_nat (length pre) `mod` N;
          BufferFixedOverwrite.Iterator.out_index := 0 |};
     BufferFixedOverwrite.max_size := N;
     BufferFixedOverwrite.size := Z.of_nat (length pre) |}.

End Representation.

(** What the specification asks of a buffer [St] of capacity [N] and [N]
    items [xs]: enqueued and then dequeued, they come back in the order they
    went in; one more [enqueue] after the [N] raises "Buffer is full"; and
    [dequeue] on the new buffer raises "Buffer is empty". *)
Definition fills_and_drains {A} (St : Type) `{!Fifo A St}
    (N : Z) (xs : list (option A)) (extra : option A) : Prop :=
  (run (St := St) ((Enqueue <$> xs) ++ replicate (length xs) Dequeue) (new N)).1
    = replicate (length xs) (inr None) ++ (inr <$> xs)
  ∧ (run (St := St) ((Enqueue <$> xs) ++ [Enqueue extra]) (new N)).1
    = replicate (length xs) (inr None) ++ [inl (Exception "Buffer is full")]
  ∧ (dequeue (new N : St)).1 = inl (Exception "Buffer is empty").

(** The largest [size] among the states of a trace. *)
Definition peak_size {A} (tr : list (BufferDynamic.t A)) : Z :=
  foldr Z.max 0 (BufferDynamic.size <$> tr).

(** ** Further vocabulary for sequences of calls *)

(** The items of the [Enqueue] calls that returned, in call order. *)
Fixpoint accepted {A} (ops : list (op A)) (rs : list (exn + option A))
    : list (option A) :=
  match ops, rs with
  | Enqueue item :: ops', inr _ :: rs' => item :: accepted ops' rs'
  | _ :: ops', _ :: rs' => accepted ops' rs'
  | _, _ => []
  end.

(** The values the [Dequeue] calls returned, in call order. *)
Fixpoint returned {A} (ops : list (op A)) (rs : list (exn + option A))
    : list (option A) :=
  match ops, rs with
  | Dequeue :: ops', inr v :: rs' => v :: returned ops' rs'
  | _ :: ops', _ :: rs' => returned ops' rs'
  | _, _ => []
  end.

(** An outcome that is a return value or the exception the method raises
    itself: "Buffer is full" from [enqueue], "Buffer is empty" from
    [dequeue]. *)
Definition own_outcome {A} (o : op A) (r : exn + option A) : Prop :=
  match o, r with
  | _, inr _ => True
  | Enqueue _, inl e => e = Exception "Buffer is full"
  | Dequeue, inl e => e = Exception "Buffer is empty"
  end.

(** What a BufferFixed or BufferDynamic constructed with a capacity that is
    not positive answers to a call. *)
Definition refusal {A} (N : Z) (o : op A) : exn + option A :=
  match o with
  | Enqueue _ =>
      inl (if decide (N = 0) then Exception "Buffer is full" else IndexError)
  | Dequeue => inl (Exception "Buffer is empty")
  end.

(** The same for BufferFixedOverwrite. *)
Definition overwrite_refusal {A} (o : op A) : exn + option A :=
  match o with
  | Enqueue _ => inl IndexError
  | Dequeue => inr None
  end.

Definition is_enqueue {A} (o : op A) : bool :=
  match o with Enqueue _ => true | Dequeue => false end.

(** A method called [n] times in a row: the values returned. *)
Fixpoint calls {St R} (n : nat) (m : M St R) : M St (list R) :=
  match n with
  | O => mret []
  | S n' => r ← m; rs ← calls n' m; mret (r :: rs)
  end.

(** A BufferFixedOverwrite built with a capacity [N] that is not positive,
    after [k] calls of [enqueue]: no slot, and a write index that has run
    away from the read index. *)
Definition stalled {A} (N : Z) (k : nat) : BufferFixedOverwrite.t A :=
  {| BufferFixedOverwrite.buffer := [];
     BufferFixedOverwrite.iter :=
       {| BufferFixedOverwrite.Iterator.max_index := N - 1;
          BufferFixedOverwrite.Iterator.in_index := Z.of_nat k;
          BufferFixedOverwrite.Iterator.out_index := 0 |};
     BufferFixedOverwrite.max_size := N;
     BufferFixedOverwrite.size := 0 |}.

(** A BufferFixedOverwrite of capacity [N] into which the items [xs] have
    been enqueued and from which nothing has been read: the read index is
    where it started, and each of the last [N] items sits in the slot that
    its number selects. *)
Record written {A} (N : Z) (xs : list (option A))
    (s : BufferFixedOverwrite.t A) : Prop := {
  written_wf : overwrite_wf N s;
  written_in :
    BufferFixedOverwrite.Iterator.in_index (BufferFixedOverwrite.iter s)
      = Z.of_nat (length xs) `mod` N;
  written_out :
    BufferFixedOverwrite.Iterator.out_index (BufferFixedOverwrite.iter s) = 0;
  written_size : BufferFixedOverwrite.size s = Z.of_nat (length xs);
  written_slots : ∀ (i : nat) item,
    Z.of_nat (length xs) - N ≤ Z.of_nat i →
    xs !! i = Some item →
    BufferFixedOverwrite.buffer s !! Z.to_nat (Z.of_nat i `mod` N) = Some item
}.

(** The slots of a BufferFixed of capacity [N] that come after the waiting
    items [q] in the ring hold [None]. *)
Definition fixed_idle {A} (N : Z) (q : list (option A)) (s : BufferFixed.t A)
    : Prop :=
  ∀ j : nat,
    (length q ≤ j)%nat → Z.of_nat j < N →
    BufferFixed.buffer s
      !! Z.to_nat ((BufferFixed.head s + Z.of_nat j) `mod` N) = Some None.

(** * Proofs *)

(** ** Subscripts and remainders inside their range *)

Ltac run_monad :=
  unfold mbind, M_bind, mret, M_ret, gets, modify, lift, raise, zoom; simpl.

Section Runtime.
Context {V : Type}.
Implicit Types (l : list V) (i : Z) (v : V).

Lemma norm_index_in_range l i :
  0 ≤ i < Z.of_nat (length l) → norm_index l i = Some (Z.to_nat i).
Proof. intros H. unfold norm_index. simpl. by rewrite decide_True. Qed.

Lemma setitem_in_range l i v :
  0 ≤ i < Z.of_nat (length l) → setitem l i v = inr (<[Z.to_nat i := v]> l).
Proof. intros H. unfold setitem. by rewrite norm_index_in_range. Qed.

Lemma getitem_in_range l i v :
  0 ≤ i → l !! Z.to_nat i = Some v → getitem l i = inr v.
Proof.
  intros Hi Hl. unfold getitem.
  rewrite norm_index_in_range; [by rewrite Hl |].
  apply lookup_lt_Some in Hl. lia.
Qed.

Lemma setitem_length l i v l' : setitem l i v = inr l' → length l' = length l.
Proof.
  unfold setitem. destruct (norm_index l i); intros [= <-].
  apply length_insert.
Qed.

Lemma py_mod_nonzero a b : b ≠ 0 → py_mod a b = inr (a `mod` b).
Proof. intros H. unfold py_mod. by rewrite decide_False. Qed.

End Runtime.

(** Slots of a ring of [N] slots: two offsets less than [N] apart from each
    other land on different slots. *)
Lemma ring_slot_inj (N h a b : Z) :
  0 < N → 0 ≤ a < b → b < a + N → (h + a) `mod` N ≠ (h + b) `mod` N.
Proof.
  intros HN Hab HbN Heq.
  assert (Hd : (h + b - (h + a)) `mod` N = 0).
  { rewrite Zminus_mod, Heq, Z.sub_diag. by apply Z.mod_0_l, Z.neq_sym, Z.lt_neq. }
  rewrite Z.mod_small in Hd; lia.
Qed.

Lemma ring_slot_succ (N h j : Z) :
  ((h + 1) `mod` N + j) `mod` N = (h + (j + 1)) `mod` N.
Proof. rewrite Zplus_mod_idemp_l. f_equal. lia. Qed.

Lemma ring_slot_range (N x : Z) : 0 < N → 0 ≤ x `mod` N < N.
Proof. intros. by apply Z.mod_pos_bound. Qed.

(** ** BufferFixed behaves like the bounded queue *)

Section FixedProofs.
Context {A : Type}.
Implicit Types (s : BufferFixed.t A) (q : list (option A)) (item : option A).

Lemma fixed_rep_init N :
  0 < N → fixed_rep (A := A) N [] (BufferFixed.init N).
Proof.
  intros HN. split; simpl; try done; try lia.
  unfold list_mul. rewrite length_replicate. lia.
Qed.

Lemma fixed_enqueue_full s item :
  BufferFixed.size s = BufferFixed.max_size s →
  BufferFixed.enqueue item s = (inl (Exception "Buffer is full"), s).
Proof.
  intros H. unfold BufferFixed.enqueue, BufferFixed.is_full. run_monad.
  by rewrite bool_decide_eq_true_2.
Qed.

Lemma fixed_dequeue_empty s :
  BufferFixed.size s = 0 →
  BufferFixed.dequeue s = (inl (Exception "Buffer is empty"), s).
Proof.
  intros H. unfold BufferFixed.dequeue, BufferFixed.is_empty. run_monad.
  by rewrite bool_decide_eq_true_2.
Qed.

Lemma fixed_enqueue_ok N q s item :
  0 < N → fixed_rep N q s → Z.of_nat (length q) ≠ N →
  ∃ s', BufferFixed.enqueue item s = (inr tt, s') ∧ fixed_rep N (q ++ [item]) s'.
Proof.
  intros HN [Hmx Hsz Hb Hh Ht Hlen Hsl] Hne.
  unfold BufferFixed.enqueue, BufferFixed.is_full. run_monad.
  rewrite bool_decide_eq_false_2 by lia. simpl.
  pose proof (ring_slot_range N (BufferFixed.head s + Z.of_nat (length q)) HN) as Hr.
  rewrite setitem_in_range by lia. simpl.
  rewrite Hmx, py_mod_nonzero by lia. simpl.
  eexists; split; [done |].
  split; simpl; rewrite ?length_app, ?length_insert; simpl; try lia.
  - rewrite Ht, Zplus_mod_idemp_l. f_equal. lia.
  - intros j x Hj. rewrite Ht.
    destruct (decide (j = length q)) as [-> | Hjq].
    + rewrite lookup_app_r, Nat.sub_diag in Hj by lia. injection Hj as <-.
      apply list_lookup_insert_eq. lia.
    + assert (j < length q)%nat.
      { apply lookup_lt_Some in Hj. rewrite length_app in Hj. simpl in Hj. lia. }
      rewrite lookup_app_l in Hj by lia.
      rewrite list_lookup_insert_ne; [by apply Hsl |].
      intros Heq. apply Z2Nat.inj in Heq; try (apply ring_slot_range; lia).
      symmetry in Heq. revert Heq. apply ring_slot_inj; lia.
Qed.

Lemma fixed_dequeue_ok N q s item :
  0 < N → fixed_rep N (item :: q) s →
  ∃ s', BufferFixed.dequeue s = (inr item, s') ∧ fixed_rep N q s'.
Proof.
  intros HN [Hmx Hsz Hb Hh Ht Hlen Hsl]. simpl in *.
  unfold BufferFixed.dequeue, BufferFixed.is_empty. run_monad.
  rewrite bool_decide_eq_false_2 by lia. simpl.
  pose proof (Hsl 0%nat item eq_refl) as H0. simpl in H0.
  rewrite Z.add_0_r, Z.mod_small in H0 by lia.
  rewrite (getitem_in_range _ _ item) by (done || lia). simpl.
  rewrite setitem_in_range by lia. simpl.
  rewrite Hmx, py_mod_nonzero by lia. simpl.
  eexists; split; [done |].
  split; simpl; rewrite ?length_insert; try lia.
  - by apply ring_slot_range.
  - rewrite Ht, ring_slot_succ. f_equal. lia.
  - intros j x Hj. rewrite ring_slot_succ.
    assert (j < length q)%nat by by apply lookup_lt_Some in Hj.
    rewrite list_lookup_insert_ne.
    + specialize (Hsl (S j) x Hj). by rewrite Nat2Z.inj_succ, <- Z.add_1_r in Hsl.
    + intros Heq. rewrite <- (Z.mod_small (BufferFixed.head s) N) in Heq at 1 by lia.
      apply Z2Nat.inj in Heq; try (apply ring_slot_range; lia).
      revert Heq. rewrite <- (Z.add_0_r (BufferFixed.head s)) at 1.
      apply ring_slot_inj; lia.
Qed.

End FixedProofs.

(** ** BufferDynamic behaves like the bounded queue *)

Section DynamicProofs.
Context {A : Type}.
Implicit Types (s : BufferDynamic.t A) (q : list (option A)) (item : option A).

Lemma dynamic_rep_init N :
  0 < N → dynamic_rep (A := A) N [] (BufferDynamic.init N).
Proof. intros HN. split; simpl; try done; lia. Qed.

Lemma dynamic_enqueue_full s item :
  BufferDynamic.size s = BufferDynamic.max_size s →
  BufferDynamic.enqueue item s = (inl (Exception "Buffer is full"), s).
Proof.
  intros H. unfold BufferDynamic.enqueue, BufferDynamic.is_full. run_monad.
  by rewrite bool_decide_eq_true_2.
Qed.

Lemma dynamic_dequeue_empty s :
  BufferDynamic.size s = 0 →
  BufferDynamic.dequeue s = (inl (Exception "Buffer is empty"), s).
Proof.
  intros H. unfold BufferDynamic.dequeue, BufferDynamic.is_empty. run_monad.
  by rewrite bool_decide_eq_true_2.
Qed.

Lemma dynamic_enqueue_ok N q s item :
  0 < N → dynamic_rep N q s → Z.of_nat (length q) ≠ N →
  ∃ s', BufferDynamic.enqueue item s = (inr tt, s')
        ∧ dynamic_rep N (q ++ [item]) s'.
Proof.
  intros HN [Hmx Hsz Hb Hh Ht Hlen Hgr Hsl] Hne.
  unfold BufferDynamic.enqueue, BufferDynamic.is_full. run_monad.
  rewrite bool_decide_eq_false_2 by lia. simpl.
  pose proof (ring_slot_range N (BufferDynamic.head s + Z.of_nat (length q)) HN) as Hr.
  rewrite Hmx. case_decide as Hlt; simpl.
  - (* the list is still growing: [append] *)
    rewrite py_mod_nonzero, Hmx by lia. simpl.
    specialize (Hgr Hlt).
    eexists; split; [done |].
    split; simpl; rewrite ?length_app; simpl; try lia.
    + rewrite Ht, Zplus_mod_idemp_l. f_equal. lia.
    + intros j x Hj.
      assert (j ≤ length q)%nat.
      { apply lookup_lt_Some in Hj. rewrite length_app in Hj. simpl in Hj. lia. }
      destruct (decide (j = length q)) as [-> | Hjq].
      * rewrite lookup_app_r, Nat.sub_diag in Hj by lia. injection Hj as <-.
        rewrite Z.mod_small, <- Hgr, Nat2Z.id by lia.
        by rewrite lookup_app_r, Nat.sub_diag by lia.
      * rewrite lookup_app_l in Hj by lia.
        apply lookup_app_l_Some. by apply Hsl.
  - (* the list has its full length: the slot at [tail] is written *)
    rewrite setitem_in_range by lia. simpl.
    rewrite py_mod_nonzero, Hmx by lia. simpl.
    eexists; split; [done |].
    split; simpl; rewrite ?length_app, ?length_insert; simpl; try lia.
    + rewrite Ht, Zplus_mod_idemp_l. f_equal. lia.
    + intros j x Hj. rewrite Ht.
      destruct (decide (j = length q)) as [-> | Hjq].
      * rewrite lookup_app_r, Nat.sub_diag in Hj by lia. injection Hj as <-.
        apply list_lookup_insert_eq. lia.
      * assert (j < length q)%nat.
        { apply lookup_lt_Some in Hj. rewrite length_app in Hj. simpl in Hj. lia. }
        rewrite lookup_app_l in Hj by lia.
        rewrite list_lookup_insert_ne; [by apply Hsl |].
        intros Heq. apply Z2Nat.inj in Heq; try (apply ring_slot_range; lia).
        symmetry in Heq. revert Heq. apply ring_slot_inj; lia.
Qed.

Lemma dynamic_dequeue_ok N q s item :
  0 < N → dynamic_rep N (item :: q) s →
  ∃ s', BufferDynamic.dequeue s = (inr item, s') ∧ dynamic_rep N q s'.
Proof.
  intros HN [Hmx Hsz Hb Hh Ht Hlen Hgr Hsl]. simpl in *.
  unfold BufferDynamic.dequeue, BufferDynamic.is_empty. run_monad.
  rewrite bool_decide_eq_false_2 by lia. simpl.
  pose proof (Hsl 0%nat item eq_refl) as H0. simpl in H0.
  rewrite Z.add_0_r, Z.mod_small in H0 by lia.
  pose proof (lookup_lt_Some _ _ _ H0) as Hin.
  rewrite (getitem_in_range _ _ item) by (done || lia). simpl.
  rewrite setitem_in_range by lia. simpl.
  rewrite Hmx, py_mod_nonzero by lia. simpl.
  eexists; split; [done |].
  split; simpl; rewrite ?length_insert; try lia.
  - by apply ring_slot_range.
  - rewrite Ht, ring_slot_succ. f_equal. lia.
  - intros Hlt. specialize (Hgr Hlt). rewrite Z.mod_small; lia.
  - intros j x Hj. rewrite ring_slot_succ.
    assert (j < length q)%nat by by apply lookup_lt_Some in Hj.
    rewrite list_lookup_insert_ne.
    + specialize (Hsl (S j) x Hj). by rewrite Nat2Z.inj_succ, <- Z.add_1_r in Hsl.
    + intros Heq. rewrite <- (Z.mod_small (BufferDynamic.head s) N) in Heq at 1 by lia.
      apply Z2Nat.inj in Heq; try (apply ring_slot_range; lia).
      revert Heq. rewrite <- (Z.add_0_r (BufferDynamic.head s)) at 1.
      apply ring_slot_inj; lia.
Qed.

End DynamicProofs.

(** ** Sequences of calls *)

Section Runs.
Context {A St : Type} `{!Fifo A St}.
Implicit Types (ops : list (op A)) (s : St).

Lemma run_cons o ops s :
  run (o :: ops) s =
    ((call o s).1 :: (run ops (call o s).2).1, (run ops (call o s).2).2).
Proof.
  simpl. destruct (call o s) as [r s']. simpl. by destruct (run ops s').
Qed.

Lemma run_app ops1 ops2 s :
  run (ops1 ++ ops2) s =
    ((run ops1 s).1 ++ (run ops2 (run ops1 s).2).1,
     (run ops2 (run ops1 s).2).2).
Proof.
  revert s. induction ops1 as [| o ops1 IH]; intros s; simpl.
  - by destruct (run ops2 s).
  - destruct (call o s) as [r s']. rewrite IH.
    by destruct (run ops1 s').
Qed.

Lemma run_length ops : ∀ s, length (run ops s).1 = length ops.
Proof.
  induction ops as [| o ops IH]; intros s; simpl; [done |].
  destruct (call o s) as [r s']. specialize (IH s').
  destruct (run ops s'). simpl in *. by rewrite IH.
Qed.

End Runs.

(** ** Sequences of calls against the bounded queue *)

Section Simulation.
Context {A St : Type} `{!Fifo A St}.
Variable N : Z.
Variable rep : list (option A) → St → Prop.
Hypothesis call_sim : ∀ o q s,
  rep q s →
  (call o s).1 = (queue_call N o q).1 ∧ rep (queue_call N o q).2 (call o s).2.

Lemma run_sim ops : ∀ q s,
  rep q s →
  (run ops s).1 = (queue_run N ops q).1 ∧ rep (queue_run N ops q).2 (run ops s).2.
Proof.
  induction ops as [| o ops IH]; intros q s Hrep; simpl; [done |].
  destruct (call_sim o q s Hrep) as [Hr Hrep'].
  destruct (call o s) as [r s'], (queue_call N o q) as [r' q']. simpl in *.
  destruct (IH q' s' Hrep') as [Hrs Hrep''].
  destruct (run ops s') as [rs s''], (queue_run N ops q') as [rs' q''].
  simpl in *. by subst.
Qed.

End Simulation.

Section QueueRuns.
Context {A : Type}.
Implicit Types (q xs : list (option A)) (ops : list (op A)).

Lemma queue_run_app N ops1 ops2 q :
  queue_run N (ops1 ++ ops2) q =
    ((queue_run N ops1 q).1 ++ (queue_run N ops2 (queue_run N ops1 q).2).1,
     (queue_run N ops2 (queue_run N ops1 q).2).2).
Proof.
  revert q. induction ops1 as [| o ops1 IH]; intros q; simpl.
  - by destruct (queue_run N ops2 q).
  - destruct (queue_call N o q) as [r q']. rewrite IH.
    by destruct (queue_run N ops1 q').
Qed.

(** Enqueueing while there is room appends. *)
Lemma queue_run_enqueues N xs : ∀ q,
  Z.of_nat (length q + length xs) ≤ N →
  queue_run N (Enqueue <$> xs) q = (replicate (length xs) (inr None), q ++ xs).
Proof.
  induction xs as [| x xs IH]; intros q Hlen; simpl.
  - by rewrite app_nil_r.
  - simpl in Hlen. rewrite decide_False by lia.
    rewrite IH by (rewrite length_app; simpl; lia).
    by rewrite <- app_assoc.
Qed.

(** Dequeueing as many times as there are items gives them oldest first. *)
Lemma queue_run_dequeues N xs :
  queue_run N (replicate (length xs) Dequeue) xs = (inr <$> xs, []).
Proof. induction xs as [| x xs IH]; simpl; [done |]. by rewrite IH. Qed.

(** Each item enqueued into the empty queue comes out at once. *)
Lemma queue_run_interleaved N xs :
  0 < N →
  queue_run N (interleaved xs) [] = (interleaved_fifo xs, []).
Proof.
  intros HN. induction xs as [| x xs IH]; simpl; [done |].
  rewrite decide_False by (simpl; lia). simpl. by rewrite IH.
Qed.

End QueueRuns.

Section Refinement.
Context {A : Type}.

Lemma fixed_call_sim N (o : op A) q (s : BufferFixed.t A) :
  0 < N → fixed_rep N q s →
  (call o s).1 = (queue_call N o q).1
  ∧ fixed_rep N (queue_call N o q).2 (call o s).2.
Proof.
  intros HN Hrep. destruct o as [item |]; simpl.
  - case_decide as Hfull.
    + rewrite fixed_enqueue_full; [done |].
      destruct Hrep. congruence.
    + destruct (fixed_enqueue_ok N q s item HN Hrep Hfull) as (s' & -> & Hrep').
      done.
  - destruct q as [| item q].
    + rewrite fixed_dequeue_empty; [done | by destruct Hrep].
    + destruct (fixed_dequeue_ok N q s item HN Hrep) as (s' & -> & Hrep').
      done.
Qed.

Lemma dynamic_call_sim N (o : op A) q (s : BufferDynamic.t A) :
  0 < N → dynamic_rep N q s →
  (call o s).1 = (queue_call N o q).1
  ∧ dynamic_rep N (queue_call N o q).2 (call o s).2.
Proof.
  intros HN Hrep. destruct o as [item |]; simpl.
  - case_decide as Hfull.
    + rewrite dynamic_enqueue_full; [done |].
      destruct Hrep. congruence.
    + destruct (dynamic_enqueue_ok N q s item HN Hrep Hfull) as (s' & -> & Hrep').
      done.
  - destruct q as [| item q].
    + rewrite dynamic_dequeue_empty; [done | by destruct Hrep].
    + destruct (dynamic_dequeue_ok N q s item HN Hrep) as (s' & -> & Hrep').
      done.
Qed.

(** From a fresh buffer, any sequence of calls has the outcomes the bounded
    queue gives, and leaves the buffer holding the queue's contents. *)
Lemma fixed_run_refines N (ops : list (op A)) :
  0 < N →
  (run ops (new N : BufferFixed.t A)).1 = (queue_run N ops []).1
  ∧ fixed_rep N (queue_run N ops []).2 (run ops (new N : BufferFixed.t A)).2.
Proof.
  intros HN. apply run_sim with (rep := fixed_rep N).
  - intros. by apply fixed_call_sim.
  - by apply fixed_rep_init.
Qed.

Lemma dynamic_run_refines N (ops : list (op A)) :
  0 < N →
  (run ops (new N : BufferDynamic.t A)).1 = (queue_run N ops []).1
  ∧ dynamic_rep N (queue_run N ops []).2 (run ops (new N : BufferDynamic.t A)).2.
Proof.
  intros HN. apply run_sim with (rep := dynamic_rep N).
  - intros. by apply dynamic_call_sim.
  - by apply dynamic_rep_init.
Qed.

End Refinement.

(** ** BufferFixedOverwrite: the cursors stay inside the list *)

Section OverwriteProofs.
Context {A : Type}.
Implicit Types (s : BufferFixedOverwrite.t A) (item : option A).
Import BufferFixedOverwrite.

(** Neither cursor method can raise; what they do to the indices. *)
Lemma get_out_eq (it : Iterator.t) :
  Iterator.get_out it =
    (inr (Iterator.out_index it),
     Iterator.set_out_index
       (if decide (Iterator.out_index it = Iterator.max_index it) then 0
        else Iterator.out_index it + 1) it).
Proof. unfold Iterator.get_out. run_monad. by case_decide. Qed.

Lemma get_in_eq (it : Iterator.t) :
  Iterator.get_in it =
    (inr (Iterator.in_index it),
     let it' :=
       if decide (Iterator.in_index it ≠ 0
                  ∧ Iterator.in_index it = Iterator.out_index it)
       then (Iterator.get_out it).2 else it in
     Iterator.set_in_index
       (if decide (Iterator.in_index it = Iterator.max_index it) then 0
        else Iterator.in_index it + 1) it').
Proof.
  unfold Iterator.get_in. run_monad.
  case_decide; simpl; rewrite ?get_out_eq; simpl; by case_decide.
Qed.

Lemma overwrite_wf_init N : 0 < N → overwrite_wf (A := A) N (init N).
Proof.
  intros HN. split; simpl; try lia.
  unfold list_mul. rewrite length_replicate. lia.
Qed.

(** [enqueue] returns whatever the state, as long as the cursors are in
    range; the item goes to the slot at the write index. *)
Lemma overwrite_enqueue_eq N s item :
  overwrite_wf N s →
  enqueue item s =
    (inr tt,
     {| buffer := <[Z.to_nat (Iterator.in_index (iter s)) := item]> (buffer s);
        iter := (Iterator.get_in (iter s)).2;
        max_size := max_size s;
        size := size s + 1 |}).
Proof.
  intros [Hmx Hlen Hmi Hin Hout Hsz].
  unfold enqueue. run_monad. rewrite get_in_eq. simpl.
  by rewrite setitem_in_range by lia.
Qed.

Lemma overwrite_enqueue_wf N s item :
  overwrite_wf N s → overwrite_wf N (enqueue item s).2.
Proof.
  intros Hwf. rewrite (overwrite_enqueue_eq N) by done.
  destruct Hwf as [Hmx Hlen Hmi Hin Hout Hsz].
  rewrite get_in_eq, get_out_eq.
  split; simpl; rewrite ?length_insert; try lia;
    repeat case_decide; simpl; lia.
Qed.

(** On a buffer that reports empty, [dequeue] returns [None] and touches
    nothing. *)
Lemma overwrite_dequeue_empty s :
  size s = 0 → dequeue s = (inr None, s).
Proof.
  intros H. unfold dequeue, is_empty. run_monad.
  by rewrite bool_decide_eq_true_2.
Qed.

(** Otherwise it returns what the slot at the read index holds. *)
Lemma overwrite_dequeue_eq N s element :
  overwrite_wf N s → size s ≠ 0 →
  buffer s !! Z.to_nat (Iterator.out_index (iter s)) = Some element →
  dequeue s =
    (inr element,
     {| buffer := <[Z.to_nat (Iterator.out_index (iter s)) := None]> (buffer s);
        iter := (Iterator.get_out (iter s)).2;
        max_size := max_size s;
        size := size s - 1 |}).
Proof.
  intros [Hmx Hlen Hmi Hin Hout Hsz] Hne Hel.
  unfold dequeue, is_empty. run_monad.
  rewrite bool_decide_eq_false_2 by done. simpl.
  rewrite get_out_eq. simpl.
  rewrite (getitem_in_range _ _ element) by (done || lia). simpl.
  by rewrite setitem_in_range by lia.
Qed.

Lemma overwrite_read_slot N s :
  overwrite_wf N s →
  is_Some (buffer s !! Z.to_nat (Iterator.out_index (iter s))).
Proof. intros [Hmx Hlen Hmi Hin Hout Hsz]. apply lookup_lt_is_Some_2. lia. Qed.

Lemma overwrite_dequeue_wf N s :
  overwrite_wf N s → overwrite_wf N (dequeue s).2.
Proof.
  intros Hwf. destruct (decide (size s = 0)) as [H0 | Hne].
  - by rewrite overwrite_dequeue_empty.
  - destruct (overwrite_read_slot N s Hwf) as [element Hel].
    rewrite (overwrite_dequeue_eq N s element) by done.
    destruct Hwf as [Hmx Hlen Hmi Hin Hout Hsz].
    rewrite get_out_eq.
    split; simpl; rewrite ?length_insert; try lia;
      repeat case_decide; simpl; lia.
Qed.

Lemma overwrite_call_wf N (o : op A) s :
  overwrite_wf N s → overwrite_wf N (call o s).2 ∧ ¬ raises (call o s).1.
Proof.
  intros Hwf. destruct o as [item |]; simpl.
  - pose proof (overwrite_enqueue_wf N s item Hwf) as Hwf'.
    rewrite (overwrite_enqueue_eq N) in * by done. simpl. tauto.
  - pose proof (overwrite_dequeue_wf N s Hwf) as Hwf'.
    destruct (decide (size s = 0)) as [H0 | Hne].
    + rewrite overwrite_dequeue_empty in * by done. simpl. tauto.
    + destruct (overwrite_read_slot N s Hwf) as [element Hel].
      rewrite (overwrite_dequeue_eq N s element) in * by done. simpl. tauto.
Qed.

Lemma overwrite_run_wf N (ops : list (op A)) : ∀ s,
  overwrite_wf N s →
  overwrite_wf N (run ops s).2 ∧ Forall (λ r, ¬ raises r) (run ops s).1.
Proof.
  induction ops as [| o ops IH]; intros s Hwf; simpl; [by split |].
  destruct (overwrite_call_wf N o s Hwf) as [Hwf' Hr].
  destruct (call o s) as [r s']. simpl in *.
  destruct (IH s' Hwf') as [Hwf'' Hrs].
  destruct (run ops s') as [rs s'']. simpl in *.
  split; [done | by constructor].
Qed.

End OverwriteProofs.

(** * The specification's properties *)

(** ** FIFO order, full and empty (BufferFixed, BufferDynamic) *)

Section FillDrain.
Context {A : Type}.
Implicit Types (xs : list (option A)).

Lemma queue_fill_drain N xs :
  Z.of_nat (length xs) = N →
  (queue_run N ((Enqueue <$> xs) ++ replicate (length xs) Dequeue) []).1
    = replicate (length xs) (inr None) ++ (inr <$> xs).
Proof.
  intros HN. rewrite queue_run_app, queue_run_enqueues by (simpl; lia).
  simpl. by rewrite queue_run_dequeues.
Qed.

Lemma queue_fill_overflow N xs (extra : option A) :
  Z.of_nat (length xs) = N →
  (queue_run N ((Enqueue <$> xs) ++ [Enqueue extra]) []).1
    = replicate (length xs) (inr None) ++ [inl (Exception "Buffer is full")].
Proof.
  intros HN. rewrite queue_run_app, queue_run_enqueues by (simpl; lia).
  simpl. by rewrite decide_True.
Qed.

(** C5: for BufferFixed and BufferDynamic of capacity [N], enqueueing [N]
    items into a fresh buffer and dequeueing [N] times returns them in
    insertion order; an [N+1]-th enqueue with no dequeue in between raises
    "Buffer is full"; a dequeue on a fresh buffer raises "Buffer is
    empty". *)
Theorem fixed_dynamic_fill_drain (N : Z) xs (extra : option A) :
  0 < N → Z.of_nat (length xs) = N →
  fills_and_drains (BufferFixed.t A) N xs extra
  ∧ fills_and_drains (BufferDynamic.t A) N xs extra.
Proof.
  intros HN Hlen. split; (split; [| split]).
  - rewrite (proj1 (fixed_run_refines N _ HN)). by apply queue_fill_drain.
  - rewrite (proj1 (fixed_run_refines N _ HN)). by apply queue_fill_overflow.
  - exact (f_equal fst (fixed_dequeue_empty (BufferFixed.init N) eq_refl)).
  - rewrite (proj1 (dynamic_run_refines N _ HN)). by apply queue_fill_drain.
  - rewrite (proj1 (dynamic_run_refines N _ HN)). by apply queue_fill_overflow.
  - exact (f_equal fst (dynamic_dequeue_empty (BufferDynamic.init N) eq_refl)).
Qed.

End FillDrain.

Lemma fixed_dynamic_fill_drain_witness :
  (0 < 3 ∧ Z.of_nat (length [Some 7; Some 8; Some 9]) = 3)
  ∧ fills_and_drains (BufferFixed.t Z) 3 [Some 7; Some 8; Some 9] (Some 4)
  ∧ fills_and_drains (BufferDynamic.t Z) 3 [Some 7; Some 8; Some 9] (Some 4).
Proof.
  split; [split; [lia | reflexivity] |].
  apply (fixed_dynamic_fill_drain 3 [Some 7; Some 8; Some 9] (Some 4));
    [lia | reflexivity].
Defined.

(** ** A failed call leaves the buffer as it was (BufferFixed, BufferDynamic) *)

(** C6: for BufferFixed and BufferDynamic, an [enqueue] on a full buffer
    raises "Buffer is full" and a [dequeue] on an empty one raises "Buffer is
    empty", and in both cases every field (list, head, tail, size) is after
    the call what it was before. *)
Theorem failed_call_keeps_state {A} :
  (∀ (s : BufferFixed.t A) item,
     BufferFixed.size s = BufferFixed.max_size s →
     BufferFixed.enqueue item s = (inl (Exception "Buffer is full"), s))
  ∧ (∀ (s : BufferFixed.t A),
     BufferFixed.size s = 0 →
     BufferFixed.dequeue s = (inl (Exception "Buffer is empty"), s))
  ∧ (∀ (s : BufferDynamic.t A) item,
     BufferDynamic.size s = BufferDynamic.max_size s →
     BufferDynamic.enqueue item s = (inl (Exception "Buffer is full"), s))
  ∧ (∀ (s : BufferDynamic.t A),
     BufferDynamic.size s = 0 →
     BufferDynamic.dequeue s = (inl (Exception "Buffer is empty"), s)).
Proof.
  split; [| split; [| split]]; intros.
  - by apply fixed_enqueue_full.
  - by apply fixed_dequeue_empty.
  - by apply dynamic_enqueue_full.
  - by apply dynamic_dequeue_empty.
Qed.

Lemma failed_call_keeps_state_witness :
  let full : BufferFixed.t Z := (run [Enqueue (Some 1); Enqueue (Some 2)] (new 2)).2 in
  let empty : BufferFixed.t Z := new 2 in
  let full' : BufferDynamic.t Z := (run [Enqueue (Some 1); Enqueue (Some 2)] (new 2)).2 in
  let empty' : BufferDynamic.t Z := new 2 in
  (BufferFixed.size full = BufferFixed.max_size full
   ∧ BufferFixed.enqueue (Some 3) full = (inl (Exception "Buffer is full"), full))
  ∧ (BufferFixed.size empty = 0
     ∧ BufferFixed.dequeue empty = (inl (Exception "Buffer is empty"), empty))
  ∧ (BufferDynamic.size full' = BufferDynamic.max_size full'
     ∧ BufferDynamic.enqueue (Some 3) full' = (inl (Exception "Buffer is full"), full'))
  ∧ (BufferDynamic.size empty' = 0
     ∧ BufferDynamic.dequeue empty' = (inl (Exception "Buffer is empty"), empty')).
Proof.
  intros full empty full' empty'.
  destruct (@failed_call_keeps_state Z) as (Hfe & Hfd & Hde & Hdd).
  split; [| split; [| split]]; (split; [reflexivity |]).
  - exact (Hfe full (Some 3) eq_refl).
  - exact (Hfd empty eq_refl).
  - exact (Hde full' (Some 3) eq_refl).
  - exact (Hdd empty' eq_refl).
Defined.

(** ** BufferFixedOverwrite never raises *)

(** C7: on a BufferFixedOverwrite of positive capacity, whatever calls were
    made before (none of which raised), [enqueue] returns; and when
    [is_empty()] is true, [dequeue] returns [None] as an ordinary result and
    leaves every field as it was. *)
Theorem overwrite_never_raises {A} (N : Z) (ops : list (op A)) (item : option A) :
  0 < N →
  let s : BufferFixedOverwrite.t A := (run ops (new N)).2 in
  Forall (λ r, ¬ raises r) (run ops (new N : BufferFixedOverwrite.t A)).1
  ∧ (∃ s', BufferFixedOverwrite.enqueue item s = (inr tt, s'))
  ∧ ((BufferFixedOverwrite.is_empty s).1 = inr true →
     BufferFixedOverwrite.dequeue s = (inr None, s)).
Proof.
  intros HN s.
  destruct (overwrite_run_wf N ops (new N)) as [Hwf Hrs].
  { by apply overwrite_wf_init. }
  split; [done |]. split.
  - eexists. by apply (overwrite_enqueue_eq N).
  - unfold BufferFixedOverwrite.is_empty. run_monad. intros [= Hb].
    apply overwrite_dequeue_empty. exact (bool_decide_eq_true_1 _ Hb).
Qed.

Lemma overwrite_never_raises_witness :
  let ops := [Enqueue (Some 5); Enqueue (Some 6); Enqueue (Some 7); Dequeue;
              Dequeue; Dequeue] in
  let s : BufferFixedOverwrite.t Z := (run ops (new 2)).2 in
  (0 < 2 ∧ (BufferFixedOverwrite.is_empty s).1 = inr true)
  ∧ (∃ s', BufferFixedOverwrite.enqueue (Some 8) s = (inr tt, s'))
  ∧ BufferFixedOverwrite.dequeue s = (inr None, s).
Proof.
  intros ops s.
  assert (H2 : 0 < 2) by lia.
  destruct (overwrite_never_raises 2 ops (Some 8) H2) as (_ & Henq & Hdeq).
  split; [split; [exact H2 | reflexivity] |].
  split; [exact Henq | exact (Hdeq eq_refl)].
Defined.

(** ** Looking at the storage changes nothing *)

(** C8: in each of the three classes, [get_buffer] returns (the list, or its
    text with the cursor indices) and leaves every field of the buffer,
    cursor indices included, as it was. *)
Theorem get_buffer_keeps_state {A} (repr : A → string) :
  (∀ s : BufferDynamic.t A,
     BufferDynamic.get_buffer s = (inr (BufferDynamic.buffer s), s))
  ∧ (∀ s : BufferFixed.t A,
     BufferFixed.get_buffer s = (inr (BufferFixed.buffer s), s))
  ∧ (∀ s : BufferFixedOverwrite.t A,
     ∃ text, BufferFixedOverwrite.get_buffer repr s = (inr text, s)).
Proof.
  split; [done |]. split; [done |].
  intros [buf [mi i o] mx n]. eexists. reflexivity.
Qed.

(** ** The read cursor of BufferFixedOverwrite runs ahead of the items *)

Section OverwriteCursor.
Context {A : Type}.
Import BufferFixedOverwrite.

Ltac overwrite_wf_now :=
  split; simpl; unfold list_mul;
  rewrite ?length_insert, ?length_replicate; lia.

(** A fresh buffer after [enqueue(x1)], [dequeue()]: it is empty, and both
    indices are 1. *)
Lemma overwrite_after_one_pair (N : Z) (x1 : A) :
  3 ≤ N →
  run [Enqueue (Some x1); Dequeue] (new N : t A) =
    ([inr None; inr (Some x1)],
     {| buffer := <[0%nat := None]> (<[0%nat := Some x1]> (list_mul None N));
        iter := {| Iterator.max_index := N - 1; Iterator.in_index := 1;
                   Iterator.out_index := 1 |};
        max_size := N;
        size := 0 |}).
Proof.
  intros HN. simpl.
  rewrite (overwrite_enqueue_eq N) by overwrite_wf_now.
  rewrite get_in_eq. simpl.
  rewrite decide_False by lia. simpl.
  erewrite (overwrite_dequeue_eq N); [| overwrite_wf_now | simpl; lia |].
  2: { simpl. apply list_lookup_insert_eq.
       unfold list_mul. rewrite length_replicate. lia. }
  rewrite get_out_eq. simpl.
  by rewrite decide_False by lia.
Qed.

(** Then [enqueue(x2)]: the write index equals the read index and is not
    0, so [get_in] calls [get_out] although nothing is waiting to be read;
    [x2] goes to slot 1 and the read index is already 2. *)
Lemma overwrite_after_third_call (N : Z) (x1 x2 : A) :
  3 ≤ N →
  run [Enqueue (Some x1); Dequeue; Enqueue (Some x2)] (new N : t A) =
    ([inr None; inr (Some x1); inr None],
     {| buffer := <[1%nat := Some x2]>
                    (<[0%nat := None]> (<[0%nat := Some x1]> (list_mul None N)));
        iter := {| Iterator.max_index := N - 1; Iterator.in_index := 2;
                   Iterator.out_index := 2 |};
        max_size := N;
        size := 1 |}).
Proof.
  intros HN.
  change [Enqueue (Some x1); Dequeue; Enqueue (Some x2)]
    with ([Enqueue (Some x1); Dequeue] ++ [Enqueue (Some x2)]).
  rewrite run_app, overwrite_after_one_pair by done. simpl.
  rewrite (overwrite_enqueue_eq N) by overwrite_wf_now.
  rewrite get_in_eq, get_out_eq. simpl.
  by rewrite !decide_False by lia.
Qed.

(** Then [dequeue()]: the buffer reports one item, the read index is 2,
    and slot 2 has never been written. *)
Lemma overwrite_fourth_call (N : Z) (x1 x2 : A) :
  3 ≤ N →
  dequeue (run [Enqueue (Some x1); Dequeue; Enqueue (Some x2)] (new N : t A)).2 =
    (inr None,
     {| buffer := <[2%nat := None]>
                    (<[1%nat := Some x2]>
                       (<[0%nat := None]> (<[0%nat := Some x1]> (list_mul None N))));
        iter := {| Iterator.max_index := N - 1; Iterator.in_index := 2;
                   Iterator.out_index := if decide (2 = N - 1) then 0 else 3 |};
        max_size := N;
        size := 0 |}).
Proof.
  intros HN. rewrite overwrite_after_third_call by done. simpl.
  erewrite (overwrite_dequeue_eq N); [| overwrite_wf_now | simpl; lia |].
  - rewrite get_out_eq. simpl. by case_decide.
  - simpl. rewrite !list_lookup_insert_ne by lia.
    apply lookup_replicate_2. lia.
Qed.

End OverwriteCursor.

(** C9: on a BufferFixedOverwrite of capacity at least 3, after [enqueue(x1)],
    [dequeue()], [enqueue(x2)] the buffer reports non-empty and holds [x2], yet
    [dequeue()] returns [None]: the third call found the write index equal to
    the read index (both 1) on an empty buffer, and [get_in] advanced the read
    index past the slot that [x2] was then written to. *)
Theorem overwrite_dequeue_returns_none {A} (N : Z) (x1 x2 : A) :
  3 ≤ N →
  let s0 : BufferFixedOverwrite.t A :=
    (run [Enqueue (Some x1); Dequeue] (new N)).2 in
  let s : BufferFixedOverwrite.t A :=
    (run [Enqueue (Some x1); Dequeue; Enqueue (Some x2)] (new N)).2 in
  ((BufferFixedOverwrite.is_empty s0).1 = inr true
   ∧ BufferFixedOverwrite.Iterator.out_index (BufferFixedOverwrite.iter s0) = 1
   ∧ BufferFixedOverwrite.Iterator.out_index
       (BufferFixedOverwrite.Iterator.get_in (BufferFixedOverwrite.iter s0)).2 = 2)
  ∧ (BufferFixedOverwrite.is_empty s).1 = inr false
  ∧ BufferFixedOverwrite.buffer s !! 1%nat = Some (Some x2)
  ∧ (BufferFixedOverwrite.dequeue s).1 = inr None.
Proof.
  intros HN s0 s. subst s0 s.
  rewrite overwrite_after_one_pair, overwrite_after_third_call by done. simpl.
  assert (Hlen : (1 < length (list_mul (@None A) N))%nat).
  { unfold list_mul. rewrite length_replicate. lia. }
  split; [| split; [| split]].
  - split; [done |]. split; [done |].
    rewrite get_in_eq, get_out_eq. simpl. by rewrite decide_False by lia.
  - done.
  - apply list_lookup_insert_eq. by rewrite !length_insert.
  - pose proof (overwrite_fourth_call N x1 x2 HN) as H4.
    rewrite overwrite_after_third_call in H4 by done. simpl in H4.
    by rewrite H4.
Qed.

Lemma overwrite_dequeue_returns_none_witness :
  let s : BufferFixedOverwrite.t Z :=
    (run [Enqueue (Some 11); Dequeue; Enqueue (Some 22)] (new 3)).2 in
  3 ≤ 3
  ∧ (BufferFixedOverwrite.is_empty s).1 = inr false
  ∧ BufferFixedOverwrite.buffer s !! 1%nat = Some (Some 22)
  ∧ (BufferFixedOverwrite.dequeue s).1 = inr None.
Proof.
  intros s. assert (H3 : 3 ≤ 3) by lia.
  split; [exact H3 |].
  exact (proj2 (overwrite_dequeue_returns_none 3 11 22 H3)).
Defined.

(** C10: on a BufferFixedOverwrite of capacity at least 3, after
    [enqueue(x1)], [dequeue()], [enqueue(x2)], [dequeue()] the buffer reports
    empty while slot 1 of the list still holds [x2]; the two [dequeue] calls
    returned [x1] and [None], so [x2] never reached the caller. *)
Theorem overwrite_item_lost {A} (N : Z) (x1 x2 : A) :
  3 ≤ N →
  let ops := [Enqueue (Some x1); Dequeue; Enqueue (Some x2); Dequeue] in
  let r : list (exn + option A) * BufferFixedOverwrite.t A := run ops (new N) in
  (BufferFixedOverwrite.is_empty r.2).1 = inr true
  ∧ BufferFixedOverwrite.buffer r.2 !! 1%nat = Some (Some x2)
  ∧ dequeued ops r.1 = [inr (Some x1); inr None].
Proof.
  intros HN ops r. subst ops r.
  change [Enqueue (Some x1); Dequeue; Enqueue (Some x2); Dequeue]
    with ([Enqueue (Some x1); Dequeue; Enqueue (Some x2)] ++ [@Dequeue A]).
  rewrite run_app.
  set (r3 := run [Enqueue (Some x1); Dequeue; Enqueue (Some x2)] (new N)).
  change (run [Dequeue] r3.2)
    with (let '(r, s') := BufferFixedOverwrite.dequeue r3.2 in ([r], s')).
  subst r3.
  rewrite overwrite_fourth_call, overwrite_after_third_call by done. simpl.
  split; [done |]. split; [| done].
  rewrite list_lookup_insert_ne by lia.
  apply list_lookup_insert_eq. rewrite !length_insert.
  unfold list_mul. rewrite length_replicate. lia.
Qed.

Lemma overwrite_item_lost_witness :
  let ops := [Enqueue (Some 11); Dequeue; Enqueue (Some 22); Dequeue] in
  let r : list (exn + option Z) * BufferFixedOverwrite.t Z := run ops (new 3) in
  3 ≤ 3
  ∧ (BufferFixedOverwrite.is_empty r.2).1 = inr true
  ∧ BufferFixedOverwrite.buffer r.2 !! 1%nat = Some (Some 22)
  ∧ dequeued ops r.1 = [inr (Some 11); inr None].
Proof.
  intros ops r. assert (H3 : 3 ≤ 3) by lia.
  split; [exact H3 |].
  exact (overwrite_item_lost 3 11 22 H3).
Defined.

(** ** Overflowing BufferFixedOverwrite *)

Section OverwriteOverflow.
Context {A : Type}.
Implicit Types (pre xs : list (option A)) (item : option A).
Import BufferFixedOverwrite.

Lemma filled_nil N : 0 < N → filled (A := A) N [] = init N.
Proof.
  intros HN. unfold filled, init, Iterator.init, list_mul. simpl.
  by rewrite Nat.sub_0_r, Z.mod_0_l by lia.
Qed.

Lemma filled_wf N pre :
  0 < N → Z.of_nat (length pre) ≤ N → overwrite_wf N (filled N pre).
Proof.
  intros HN Hlen.
  pose proof (ring_slot_range N (Z.of_nat (length pre)) HN).
  split; simpl; rewrite ?length_app, ?length_replicate; lia.
Qed.

Lemma overwrite_enqueue_filled N pre item :
  Z.of_nat (length pre) < N →
  enqueue item (filled N pre) = (inr tt, filled N (pre ++ [item])).
Proof.
  intros Hlen.
  rewrite (overwrite_enqueue_eq N) by (apply filled_wf; lia).
  rewrite get_in_eq. unfold filled. simpl.
  rewrite (Z.mod_small (Z.of_nat (length pre))) by lia.
  rewrite length_app, Nat2Z.id. simpl.
  f_equal. f_equal.
  - rewrite <- (Nat.add_0_r (length pre)) at 1.
    rewrite insert_app_r.
    replace (Z.to_nat N - length pre)%nat
      with (S (Z.to_nat N - (length pre + 1)))%nat by lia.
    simpl. by rewrite <- app_assoc.
  - rewrite (decide_False (P := _ ∧ _)) by lia.
    case_decide as Hlast; unfold Iterator.set_in_index; simpl; f_equal.
    + replace (Z.of_nat (length pre + 1)) with N by lia.
      by rewrite Z.mod_same by lia.
    + rewrite Z.mod_small; lia.
  - lia.
Qed.

Lemma overwrite_run_filled N xs : ∀ pre,
  Z.of_nat (length pre + length xs) ≤ N →
  run (Enqueue <$> xs) (filled N pre) =
    (replicate (length xs) (inr None), filled N (pre ++ xs)).
Proof.
  induction xs as [| x xs IH]; intros pre Hlen; simpl.
  - by rewrite app_nil_r.
  - simpl in Hlen.
    rewrite overwrite_enqueue_filled by lia.
    rewrite IH by (rewrite length_app; simpl; lia).
    by rewrite <- app_assoc.
Qed.

(** After [N] items have filled a fresh buffer of capacity [N >= 2], one
    more [enqueue] overwrites slot 0 but finds the write index at 0 and
    leaves the read index at 0 too: the next [dequeue] returns the item just
    enqueued, ahead of the older ones. *)
Lemma overwrite_overflow_newest_first N xs item :
  2 ≤ N → Z.of_nat (length xs) = N →
  (run ((Enqueue <$> xs) ++ [Enqueue item; Dequeue]) (new N : t A)).1 =
    replicate (length xs) (inr None) ++ [inr None; inr item].
Proof.
  intros HN Hlen. rewrite run_app.
  change (new N : t A) with (init (A := A) N).
  rewrite <- filled_nil, overwrite_run_filled by (simpl; lia). simpl.
  f_equal.
  assert (Hwf : overwrite_wf N (filled N xs)) by (apply filled_wf; lia).
  rewrite (overwrite_enqueue_eq N) by done.
  rewrite get_in_eq. simpl.
  rewrite Hlen, Z.mod_same by lia. simpl.
  rewrite decide_False by lia.
  erewrite (overwrite_dequeue_eq N); [done | | simpl; lia |].
  - destruct Hwf as [Hmx Hl Hmi Hin Hout Hsz]. simpl in *.
    split; simpl; rewrite ?length_insert; lia.
  - simpl. apply list_lookup_insert_eq.
    rewrite length_app. lia.
Qed.

End OverwriteOverflow.

Section OverwriteSize.
Context {A : Type}.

(** Each [enqueue] adds one to [size], whether or not a slot was free. *)
Lemma overwrite_size_enqueues N (xs : list (option A)) :
  ∀ s : BufferFixedOverwrite.t A,
    overwrite_wf N s →
    BufferFixedOverwrite.size (run (Enqueue <$> xs) s).2
      = BufferFixedOverwrite.size s + Z.of_nat (length xs).
Proof.
  induction xs as [| x xs IH]; intros s Hwf; [simpl; lia |].
  rewrite fmap_cons, run_cons. cbn [snd call enqueue overwrite_fifo].
  pose proof (overwrite_enqueue_wf N s x Hwf) as Hwf'.
  rewrite (overwrite_enqueue_eq N) in * by done.
  cbn [snd] in *. rewrite (IH _ Hwf'). simpl. lia.
Qed.

End OverwriteSize.

(** ** How long the list of BufferDynamic gets *)

Section DynamicStorage.
Context {A : Type}.
Implicit Types (s : BufferDynamic.t A) (ops : list (op A)).

Lemma enqueued_cons (o : op A) ops r rs :
  enqueued (o :: ops) (r :: rs) = (enqueued [o] [r] + enqueued ops rs)%nat.
Proof. by destruct o, r. Qed.

(** An [enqueue] that returned made the list one longer, unless it already
    had [max_size] slots; any other call leaves its length alone. *)
Lemma dynamic_call_length (o : op A) s :
  Z.of_nat (length (BufferDynamic.buffer s)) ≤ BufferDynamic.max_size s →
  BufferDynamic.max_size (call o s).2 = BufferDynamic.max_size s
  ∧ length (BufferDynamic.buffer (call o s).2) =
      Nat.min (Z.to_nat (BufferDynamic.max_size s))
              (length (BufferDynamic.buffer s) + enqueued [o] [(call o s).1]).
Proof.
  intros Hlen. destruct o as [item |]; simpl.
  - unfold BufferDynamic.enqueue, BufferDynamic.is_full. run_monad.
    destruct (bool_decide _); simpl; [split; [done | lia] |].
    case_decide as Hlt; simpl.
    + unfold py_mod. rewrite decide_False by lia. simpl.
      rewrite length_app. simpl. split; [done | lia].
    + destruct (setitem _ _ _) as [e | buf'] eqn:Hset; simpl;
        [split; [done | lia] |].
      apply setitem_length in Hset.
      unfold py_mod. case_decide; simpl; (split; [done | lia]).
  - unfold BufferDynamic.dequeue, BufferDynamic.is_empty. run_monad.
    destruct (bool_decide _); simpl; [split; [done | lia] |].
    destruct (getitem _ _) as [e | item]; simpl; [split; [done | lia] |].
    destruct (setitem _ _ _) as [e | buf'] eqn:Hset; simpl;
      [split; [done | lia] |].
    apply setitem_length in Hset.
    unfold py_mod. case_decide; simpl; (split; [done | lia]).
Qed.

Lemma dynamic_run_length ops : ∀ s,
  Z.of_nat (length (BufferDynamic.buffer s)) ≤ BufferDynamic.max_size s →
  length (BufferDynamic.buffer (run ops s).2) =
    Nat.min (Z.to_nat (BufferDynamic.max_size s))
            (length (BufferDynamic.buffer s) + enqueued ops (run ops s).1).
Proof.
  induction ops as [| o ops IH]; intros s Hlen.
  - simpl. lia.
  - rewrite run_cons. cbn [fst snd]. rewrite enqueued_cons.
    destruct (dynamic_call_length o s Hlen) as [Hmx Hl].
    rewrite IH, Hmx, Hl by lia. lia.
Qed.

End DynamicStorage.

(** C4 fails on the code: with capacity 3, after [enqueue(1)], [dequeue()],
    [enqueue(2)] the [size] was never above 1 (so always below 3), yet the
    list has 2 slots, [[None, 2]], for one waiting item.  The docstring of
    BufferDynamic says that the buffer grows or shrinks as items are enqueued
    or removed and that no memory is kept for unused slots; [dequeue] only
    clears the slot and [enqueue] appends past it. *)
Lemma dynamic_storage_exceeds_peak_size :
  let ops := [Enqueue (Some 1); Dequeue; Enqueue (Some 2)] in
  let tr := trace ops (new 3 : BufferDynamic.t Z) in
  Forall (λ s, BufferDynamic.size s < 3) tr
  ∧ peak_size tr = 1
  ∧ ¬ (∀ s, s ∈ tr →
         Z.of_nat (length (BufferDynamic.buffer s)) ≤ peak_size tr).
Proof.
  intros ops tr. split; [| split].
  - vm_compute. repeat constructor.
  - reflexivity.
  - intros H.
    specialize (H (run ops (new 3)).2). vm_compute in H.
    apply H; [| reflexivity].
    do 3 apply list_elem_of_further. apply list_elem_of_here.
Qed.

(** X13: what the list of a BufferDynamic does instead of following the
    number of waiting items.  With capacity [N >= 1], after any calls on a
    fresh buffer it has as many slots as [enqueue] has returned so far, up to
    [N]: one [append] for each until the list has [N] slots, and no [dequeue]
    ever gives a slot back. *)
Theorem dynamic_storage_length {A} (N : Z) (ops : list (op A)) :
  0 < N →
  let r := run ops (new N : BufferDynamic.t A) in
  length (BufferDynamic.buffer r.2) = Nat.min (Z.to_nat N) (enqueued ops r.1).
Proof.
  intros HN r. subst r.
  rewrite dynamic_run_length by (simpl; lia). done.
Qed.

Lemma dynamic_storage_length_witness :
  let ops := [Enqueue (Some 1); Dequeue; Enqueue (Some 2)] in
  let r := run ops (new 3 : BufferDynamic.t Z) in
  0 < 3
  ∧ length (BufferDynamic.buffer r.2) = Nat.min (Z.to_nat 3) (enqueued ops r.1).
Proof.
  intros ops r. assert (H3 : 0 < 3) by lia.
  split; [exact H3 | exact (dynamic_storage_length 3 ops H3)].
Defined.

(** ** Where BufferFixedOverwrite departs from the specification *)

(** C1 fails on the code: with capacity 3, enqueueing 10, 20, 30, 40 raises
    nothing, but the three dequeues that follow return 40, 20, 30 and not
    20, 30, 40.  The fourth [enqueue] overwrote slot 0 without moving the read
    index, which [get_in] only does when the write index is not 0. *)
Theorem overwrite_overflow_order :
  let ops := (Enqueue <$> [Some 10; Some 20; Some 30; Some 40])
             ++ [Dequeue; Dequeue; Dequeue] in
  let r := run ops (new 3 : BufferFixedOverwrite.t Z) in
  Forall (λ o, ¬ raises o) r.1
  ∧ dequeued ops r.1 = [inr (Some 40); inr (Some 20); inr (Some 30)]
  ∧ dequeued ops r.1 ≠ [inr (Some 20); inr (Some 30); inr (Some 40)].
Proof.
  intros ops r. split; [| split].
  - apply (overwrite_run_wf 3 ops (new 3)). apply overwrite_wf_init. lia.
  - reflexivity.
  - vm_compute. discriminate.
Qed.

(** C2 fails on the code for BufferFixedOverwrite: with capacity 3, after
    four [enqueue] calls [size] is 4. *)
Theorem overwrite_size_exceeds_capacity :
  let s : BufferFixedOverwrite.t Z :=
    (run (Enqueue <$> [Some 10; Some 20; Some 30; Some 40]) (new 3)).2 in
  BufferFixedOverwrite.max_size s = 3
  ∧ BufferFixedOverwrite.size s = 4
  ∧ ¬ (0 ≤ BufferFixedOverwrite.size s ≤ 3).
Proof. intros s. vm_compute. split; [done |]. split; [done |]. by intros [_ H]. Qed.

(** C3 fails on the code for BufferFixedOverwrite: with capacity 2, the four
    calls [enqueue(1)], [dequeue()], [enqueue(2)], [dequeue()] raise nothing,
    but the second [dequeue] returns [None] and not 2. *)
Theorem overwrite_interleaved_order :
  let xs := [Some 1; Some 2] in
  let r := run (interleaved xs) (new 2 : BufferFixedOverwrite.t Z) in
  r.1 = [inr None; inr (Some 1); inr None; inr None]
  ∧ r.1 ≠ interleaved_fifo xs.
Proof. intros xs r. split; [reflexivity | vm_compute; discriminate]. Qed.

Section Interleaved.
Context {A : Type}.

(** The other two classes do what C3 says, for any number of items. *)
Lemma fixed_dynamic_interleaved (N : Z) (xs : list (option A)) :
  0 < N →
  (run (interleaved xs) (new N : BufferFixed.t A)).1 = interleaved_fifo xs
  ∧ (run (interleaved xs) (new N : BufferDynamic.t A)).1 = interleaved_fifo xs.
Proof.
  intros HN.
  rewrite (proj1 (fixed_run_refines N _ HN)).
  rewrite (proj1 (dynamic_run_refines N _ HN)).
  by rewrite queue_run_interleaved.
Qed.

(** BufferFixedOverwrite misses from capacity 3 on as it does for 2: the
    second [dequeue] of the interleaved calls returns [None]. *)
Lemma overwrite_interleaved_second_none (N : Z) (x1 x2 : A) xs :
  3 ≤ N →
  (run (interleaved (Some x1 :: Some x2 :: xs))
       (new N : BufferFixedOverwrite.t A)).1 !! 3%nat
    = Some (inr None).
Proof.
  intros HN.
  change (interleaved (Some x1 :: Some x2 :: xs))
    with ([Enqueue (Some x1); Dequeue; Enqueue (Some x2)]
            ++ Dequeue :: interleaved xs).
  rewrite run_app, (run_cons Dequeue). cbn [fst snd].
  rewrite lookup_app_r; rewrite run_length; [| simpl; lia].
  change (call Dequeue ?s) with (BufferFixedOverwrite.dequeue s).
  by rewrite overwrite_fourth_call.
Qed.

(** The two bounded classes do what C2 says. *)
Lemma fixed_dynamic_size_bounded (N : Z) (ops : list (op A)) :
  0 < N →
  0 ≤ BufferFixed.size (run ops (new N : BufferFixed.t A)).2 ≤ N
  ∧ 0 ≤ BufferDynamic.size (run ops (new N : BufferDynamic.t A)).2 ≤ N.
Proof.
  intros HN.
  destruct (fixed_run_refines N ops HN) as [_ [_ Hf Hfb _ _ _ _]].
  destruct (dynamic_run_refines N ops HN) as [_ [_ Hd Hdb _ _ _ _ _]].
  lia.
Qed.

(** Below, [size] of BufferFixedOverwrite has the bound 0; above, none:
    after [k] calls of [enqueue] on a fresh buffer it is [k]. *)
Lemma overwrite_size_unbounded (N : Z) (ops : list (op A)) xs :
  0 < N →
  0 ≤ BufferFixedOverwrite.size
        (run ops (new N : BufferFixedOverwrite.t A)).2
  ∧ BufferFixedOverwrite.size
      (run (Enqueue <$> xs) (new N : BufferFixedOverwrite.t A)).2
    = Z.of_nat (length xs).
Proof.
  intros HN. split.
  - destruct (overwrite_run_wf N ops (new N)) as [[] _]; [| done].
    by apply overwrite_wf_init.
  - pose proof (overwrite_size_enqueues N xs (new N)) as H.
    rewrite H by by apply overwrite_wf_init. done.
Qed.

End Interleaved.

(** * Further properties of the code *)

(** ** BufferFixed and BufferDynamic on any sequence of calls *)

Section BoundedQueueFacts.
Context {A : Type}.
Implicit Types (q : list (option A)) (ops : list (op A)).

Lemma queue_run_cons N (o : op A) ops q :
  queue_run N (o :: ops) q =
    ((queue_call N o q).1 :: (queue_run N ops (queue_call N o q).2).1,
     (queue_run N ops (queue_call N o q).2).2).
Proof.
  simpl. destruct (queue_call N o q) as [r q']. simpl.
  by destruct (queue_run N ops q').
Qed.

(** What went in is what came out followed by what is still waiting. *)
Lemma queue_run_fifo N ops : ∀ q,
  q ++ accepted ops (queue_run N ops q).1
    = returned ops (queue_run N ops q).1 ++ (queue_run N ops q).2.
Proof.
  induction ops as [| o ops IH]; intros q.
  - simpl. by rewrite app_nil_r.
  - rewrite queue_run_cons. cbn [fst snd].
    destruct o as [item |]; simpl.
    + case_decide; simpl; [apply IH |].
      rewrite <- IH. by rewrite <- app_assoc.
    + destruct q as [| item q]; simpl; [apply (IH []) |].
      by rewrite <- IH.
Qed.

Lemma queue_run_own N ops : ∀ q,
  Forall2 own_outcome ops (queue_run N ops q).1.
Proof.
  induction ops as [| o ops IH]; intros q; [constructor |].
  rewrite queue_run_cons. cbn [fst snd]. constructor; [| apply IH].
  destruct o as [item |]; simpl; [by case_decide | by destruct q].
Qed.

End BoundedQueueFacts.

(** X1: on a BufferFixed or a BufferDynamic of capacity [N >= 1], whatever
    calls are made on a fresh buffer, the values the dequeues returned are,
    in order, the first of the items the enqueues accepted; the accepted
    items not yet returned are as many as [size] says. *)
Theorem fixed_dynamic_fifo {A} (N : Z) (ops : list (op A)) :
  0 < N →
  let rf := run ops (new N : BufferFixed.t A) in
  let rd := run ops (new N : BufferDynamic.t A) in
  (∃ waiting,
     accepted ops rf.1 = returned ops rf.1 ++ waiting
     ∧ BufferFixed.size rf.2 = Z.of_nat (length waiting))
  ∧ (∃ waiting,
     accepted ops rd.1 = returned ops rd.1 ++ waiting
     ∧ BufferDynamic.size rd.2 = Z.of_nat (length waiting)).
Proof.
  intros HN rf rd. subst rf rd.
  destruct (fixed_run_refines N ops HN) as [-> Hf].
  destruct (dynamic_run_refines N ops HN) as [-> Hd].
  pose proof (queue_run_fifo N ops []) as Hfifo. simpl in Hfifo.
  split; exists (queue_run N ops []).2; (split; [done |]).
  - by destruct Hf.
  - by destruct Hd.
Qed.

Lemma fixed_dynamic_fifo_witness :
  let ops := [Enqueue (Some 1); Enqueue (Some 2); Dequeue; Enqueue (Some 3);
              Enqueue (Some 4); Dequeue; Dequeue; Dequeue] in
  let rf := run ops (new 2 : BufferFixed.t Z) in
  0 < 2
  ∧ ∃ waiting,
      accepted ops rf.1 = returned ops rf.1 ++ waiting
      ∧ BufferFixed.size rf.2 = Z.of_nat (length waiting).
Proof.
  intros ops rf. assert (H2 : 0 < 2) by lia.
  split; [exact H2 | exact (proj1 (fixed_dynamic_fifo 2 ops H2))].
Defined.

(** X2: on a BufferFixed or a BufferDynamic of capacity [N >= 1], no sequence
    of calls on a fresh buffer raises anything but "Buffer is full" from
    [enqueue] and "Buffer is empty" from [dequeue]: no subscript is ever out
    of range and no remainder is taken by zero. *)
Theorem fixed_dynamic_own_exceptions {A} (N : Z) (ops : list (op A)) :
  0 < N →
  Forall2 own_outcome ops (run ops (new N : BufferFixed.t A)).1
  ∧ Forall2 own_outcome ops (run ops (new N : BufferDynamic.t A)).1.
Proof.
  intros HN.
  rewrite (proj1 (fixed_run_refines N ops HN)).
  rewrite (proj1 (dynamic_run_refines N ops HN)).
  split; apply queue_run_own.
Qed.

Lemma fixed_dynamic_own_exceptions_witness :
  let ops := [Dequeue; Enqueue (Some 1); Enqueue (Some 2); Enqueue (Some 3);
              Dequeue; Dequeue; Dequeue] in
  0 < 2
  ∧ Forall2 own_outcome ops (run ops (new 2 : BufferFixed.t Z)).1
  ∧ Forall2 own_outcome ops (run ops (new 2 : BufferDynamic.t Z)).1.
Proof.
  intros ops. assert (H2 : 0 < 2) by lia.
  split; [exact H2 | exact (fixed_dynamic_own_exceptions 2 ops H2)].
Defined.

(** X3: a caller cannot tell a BufferDynamic from a BufferFixed of the same
    capacity [N >= 1]: the same calls on fresh buffers have the same
    outcomes, call by call. *)
Theorem dynamic_fixed_same_outcomes {A} (N : Z) (ops : list (op A)) :
  0 < N →
  (run ops (new N : BufferDynamic.t A)).1 = (run ops (new N : BufferFixed.t A)).1.
Proof.
  intros HN.
  rewrite (proj1 (fixed_run_refines N ops HN)).
  by rewrite (proj1 (dynamic_run_refines N ops HN)).
Qed.

Lemma dynamic_fixed_same_outcomes_witness :
  let ops := [Enqueue (Some 1); Dequeue; Enqueue (Some 2); Enqueue (Some 3);
              Enqueue (Some 4); Enqueue (Some 5); Dequeue; Dequeue] in
  0 < 3
  ∧ (run ops (new 3 : BufferDynamic.t Z)).1 = (run ops (new 3 : BufferFixed.t Z)).1.
Proof.
  intros ops. assert (H3 : 0 < 3) by lia.
  split; [exact H3 | exact (dynamic_fixed_same_outcomes 3 ops H3)].
Defined.

(** ** The lists of BufferFixed and BufferFixedOverwrite keep their length *)

Section FixedLength.
Context {A : Type}.

Lemma fixed_call_length (o : op A) (s : BufferFixed.t A) :
  length (BufferFixed.buffer (call o s).2) = length (BufferFixed.buffer s).
Proof.
  destruct o as [item |]; simpl.
  - unfold BufferFixed.enqueue, BufferFixed.is_full. run_monad.
    destruct (bool_decide _); simpl; [done |].
    destruct (setitem _ _ _) as [e | buf'] eqn:Hset; simpl; [done |].
    apply setitem_length in Hset.
    unfold py_mod. by case_decide.
  - unfold BufferFixed.dequeue, BufferFixed.is_empty. run_monad.
    destruct (bool_decide _); simpl; [done |].
    destruct (getitem _ _) as [e | item]; simpl; [done |].
    destruct (setitem _ _ _) as [e | buf'] eqn:Hset; simpl; [done |].
    apply setitem_length in Hset.
    unfold py_mod. by case_decide.
Qed.

Lemma overwrite_call_length (o : op A) (s : BufferFixedOverwrite.t A) :
  length (BufferFixedOverwrite.buffer (call o s).2)
    = length (BufferFixedOverwrite.buffer s).
Proof.
  destruct o as [item |]; simpl.
  - unfold BufferFixedOverwrite.enqueue. run_monad.
    rewrite get_in_eq. simpl.
    destruct (setitem _ _ _) as [e | buf'] eqn:Hset; simpl; [done |].
    by apply setitem_length in Hset.
  - unfold BufferFixedOverwrite.dequeue, BufferFixedOverwrite.is_empty.
    run_monad.
    destruct (bool_decide _); simpl; [done |].
    rewrite get_out_eq. simpl.
    destruct (getitem _ _) as [e | item]; simpl; [done |].
    destruct (setitem _ _ _) as [e | buf'] eqn:Hset; simpl; [done |].
    by apply setitem_length in Hset.
Qed.

End FixedLength.

(** X4: the lists of a BufferFixed and of a BufferFixedOverwrite have, after
    any sequence of calls, the length they were built with: [max_size] slots,
    none for a [max_size] that is not positive.  No call appends or removes a
    slot. *)
Theorem fixed_overwrite_length_kept {A} (N : Z) (ops : list (op A)) :
  length (BufferFixed.buffer (run ops (new N : BufferFixed.t A)).2) = Z.to_nat N
  ∧ length (BufferFixedOverwrite.buffer
              (run ops (new N : BufferFixedOverwrite.t A)).2) = Z.to_nat N.
Proof.
  split.
  - transitivity (length (BufferFixed.buffer (new N : BufferFixed.t A))).
    + generalize (new N : BufferFixed.t A).
      induction ops as [| o ops IH]; intros s; [done |].
      rewrite run_cons. cbn [snd]. by rewrite IH, fixed_call_length.
    + apply length_replicate.
  - transitivity
      (length (BufferFixedOverwrite.buffer (new N : BufferFixedOverwrite.t A))).
    + generalize (new N : BufferFixedOverwrite.t A).
      induction ops as [| o ops IH]; intros s; [done |].
      rewrite run_cons. cbn [snd]. by rewrite IH, overwrite_call_length.
    + apply length_replicate.
Qed.

(** ** Buffers built with a capacity that is not positive *)

Section NoCapacity.
Context {A : Type}.
#[local] Arguments setitem : simpl never.

Lemma setitem_nil (i : Z) (v : option A) : setitem [] i v = inl IndexError.
Proof.
  unfold setitem, norm_index. cbn [length].
  by rewrite !decide_False by lia.
Qed.

Lemma fixed_call_no_capacity N (o : op A) :
  N ≤ 0 →
  call o (BufferFixed.init N : BufferFixed.t A)
    = (refusal N o, BufferFixed.init N).
Proof.
  intros HN. destruct o as [item |]; simpl.
  - unfold BufferFixed.enqueue, BufferFixed.is_full. run_monad.
    case_decide as H0.
    + by rewrite bool_decide_eq_true_2.
    + rewrite bool_decide_eq_false_2 by done. simpl.
      unfold list_mul. replace (Z.to_nat N) with 0%nat by lia.
      by rewrite ?setitem_nil.
  - by rewrite fixed_dequeue_empty.
Qed.

Lemma dynamic_call_no_capacity N (o : op A) :
  N ≤ 0 →
  call o (BufferDynamic.init N : BufferDynamic.t A)
    = (refusal N o, BufferDynamic.init N).
Proof.
  intros HN. destruct o as [item |]; simpl.
  - unfold BufferDynamic.enqueue, BufferDynamic.is_full. run_monad.
    case_decide as H0.
    + by rewrite bool_decide_eq_true_2.
    + rewrite bool_decide_eq_false_2 by done. simpl.
      rewrite decide_False by (simpl; lia). simpl.
      by rewrite ?setitem_nil.
  - by rewrite dynamic_dequeue_empty.
Qed.

(** With no slot to write to, [enqueue] of BufferFixedOverwrite moves the
    write index and then fails on the subscript. *)
Lemma overwrite_call_no_capacity N (k : nat) (o : op A) :
  N ≤ 0 →
  call o (stalled N k : BufferFixedOverwrite.t A)
    = (overwrite_refusal o,
       stalled N (if is_enqueue o then S k else k)).
Proof.
  intros HN. destruct o as [item |]; simpl.
  - unfold BufferFixedOverwrite.enqueue. run_monad.
    rewrite get_in_eq. simpl.
    rewrite (decide_False (P := _ ∧ _)) by lia.
    rewrite decide_False by lia. simpl.
    rewrite setitem_nil. simpl.
    unfold stalled, BufferFixedOverwrite.set_iter,
      BufferFixedOverwrite.Iterator.set_in_index. simpl.
    by replace (Z.of_nat (S k)) with (Z.of_nat k + 1) by lia.
  - by rewrite overwrite_dequeue_empty.
Qed.

Lemma overwrite_run_no_capacity N (ops : list (op A)) : ∀ k : nat,
  N ≤ 0 →
  run ops (stalled N k : BufferFixedOverwrite.t A)
    = (overwrite_refusal <$> ops,
       stalled N (k + length (filter (λ o, is_enqueue o = true) ops))).
Proof.
  induction ops as [| o ops IH]; intros k HN.
  - simpl. by rewrite Nat.add_0_r.
  - rewrite run_cons, overwrite_call_no_capacity by done. cbn [fst snd].
    rewrite IH by done. rewrite fmap_cons. cbn [snd]. f_equal. f_equal.
    destruct o as [item |].
    + rewrite filter_cons_True by done. simpl. lia.
    + by rewrite filter_cons_False by done.
Qed.

End NoCapacity.

Section Refusals.
Context {A St : Type} `{!Fifo A St}.

Lemma run_fixpoint (f : op A → exn + option A) (s : St) (ops : list (op A)) :
  (∀ o, call o s = (f o, s)) → run ops s = (f <$> ops, s).
Proof.
  intros Hcall. induction ops as [| o ops IH]; [done |].
  by rewrite run_cons, Hcall, fmap_cons; cbn [fst snd]; rewrite IH.
Qed.

End Refusals.

(** X5: neither constructor checks its argument.  A BufferFixed or a
    BufferDynamic built with capacity 0 answers every [enqueue] with "Buffer is
    full" and every [dequeue] with "Buffer is empty"; built with a negative
    capacity, it answers every [enqueue] with an [IndexError] instead.  In
    both cases no call changes any field. *)
Theorem fixed_dynamic_no_capacity {A} (N : Z) (ops : list (op A)) :
  N ≤ 0 →
  run ops (new N : BufferFixed.t A) = (refusal N <$> ops, new N)
  ∧ run ops (new N : BufferDynamic.t A) = (refusal N <$> ops, new N).
Proof.
  intros HN. split; apply run_fixpoint; intros o.
  - by apply fixed_call_no_capacity.
  - by apply dynamic_call_no_capacity.
Qed.

Lemma fixed_dynamic_no_capacity_witness :
  let ops := [Enqueue (Some 1); Dequeue; Enqueue (Some 2)] in
  (-1 ≤ 0
   ∧ run ops (new (-1) : BufferFixed.t Z) = (refusal (-1) <$> ops, new (-1))
   ∧ run ops (new (-1) : BufferDynamic.t Z) = (refusal (-1) <$> ops, new (-1)))
  ∧ (0 ≤ 0
     ∧ run ops (new 0 : BufferFixed.t Z) = (refusal 0 <$> ops, new 0)
     ∧ run ops (new 0 : BufferDynamic.t Z) = (refusal 0 <$> ops, new 0)).
Proof.
  intros ops.
  assert (Hn : -1 ≤ 0) by lia. assert (H0 : 0 ≤ 0) by lia.
  split.
  - split; [exact Hn | exact (fixed_dynamic_no_capacity (-1) ops Hn)].
  - split; [exact H0 | exact (fixed_dynamic_no_capacity 0 ops H0)].
Defined.

(** X6: a BufferFixedOverwrite built with a capacity that is not positive
    has no slot: every [enqueue] raises an [IndexError], but only after
    [get_in] has moved the write index, which so counts the failed calls;
    every [dequeue] returns [None]; [size] stays 0. *)
Theorem overwrite_no_capacity {A} (N : Z) (ops : list (op A)) :
  N ≤ 0 →
  run ops (new N : BufferFixedOverwrite.t A)
    = (overwrite_refusal <$> ops,
       stalled N (length (filter (λ o, is_enqueue o = true) ops))).
Proof.
  intros HN.
  change (new N : BufferFixedOverwrite.t A) with (BufferFixedOverwrite.init (A := A) N).
  replace (BufferFixedOverwrite.init (A := A) N) with (stalled (A := A) N 0).
  - by rewrite overwrite_run_no_capacity.
  - unfold stalled, BufferFixedOverwrite.init, list_mul,
      BufferFixedOverwrite.Iterator.init.
    by replace (Z.to_nat N) with 0%nat by lia.
Qed.

Lemma overwrite_no_capacity_witness :
  let ops := [Enqueue (Some 1); Dequeue; Enqueue (Some 2); Enqueue (Some 3)] in
  0 ≤ 0
  ∧ run ops (new 0 : BufferFixedOverwrite.t Z)
      = ([inl IndexError; inr None; inl IndexError; inl IndexError],
         stalled 0 3).
Proof.
  intros ops. assert (H0 : 0 ≤ 0) by lia.
  split; [exact H0 | exact (overwrite_no_capacity 0 ops H0)].
Defined.

(** ** BufferFixedOverwrite: writing without reading, then reading *)

Section OverwriteWriting.
Context {A : Type}.
Implicit Types (s : BufferFixedOverwrite.t A) (xs pre : list (option A)).

Lemma written_init N : 0 < N → written (A := A) N [] (BufferFixedOverwrite.init N).
Proof.
  intros HN. split; [by apply overwrite_wf_init | | done | done | done].
  simpl. by rewrite Z.mod_0_l by lia.
Qed.

(** [get_in] leaves a read index at 0 alone: it only moves one that equals
    a write index other than 0. *)
Lemma written_enqueue N pre s item :
  0 < N → written N pre s →
  ∃ s', BufferFixedOverwrite.enqueue item s = (inr tt, s')
        ∧ written N (pre ++ [item]) s'.
Proof.
  intros HN [Hwf Hin Hout Hsz Hsl].
  rewrite (overwrite_enqueue_eq N) by done.
  eexists; split; [done |].
  pose proof (overwrite_enqueue_wf N s item Hwf) as Hwf'.
  rewrite (overwrite_enqueue_eq N) in Hwf' by done. cbn [snd] in Hwf'.
  destruct Hwf as [Hmx Hlen Hmi Hi Ho Hn].
  pose proof (ring_slot_range N (Z.of_nat (length pre)) HN) as Hr.
  split; [done | | | |]; simpl; rewrite ?get_in_eq; simpl;
    rewrite ?length_app; simpl.
  - rewrite Hin, Hmi. case_decide as Hlast; simpl.
    + replace (Z.of_nat (length pre + 1))
        with (Z.of_nat (length pre) `mod` N + 1 + N * (Z.of_nat (length pre) `div` N)).
      * rewrite Hlast. replace (N - 1 + 1 + N * (Z.of_nat (length pre) `div` N))
          with (N * (1 + Z.of_nat (length pre) `div` N)) by lia.
        by rewrite Z.mul_comm, Z.mod_mul by lia.
      * pose proof (Z.div_mod (Z.of_nat (length pre)) N). lia.
    + rewrite Nat2Z.inj_add. simpl (Z.of_nat 1).
      rewrite <- (Zplus_mod_idemp_l (Z.of_nat (length pre))).
      rewrite (Z.mod_small (_ + _)); lia.
  - by rewrite (decide_False (P := _ ∧ _)) by lia.
  - lia.
  - intros i x Hi' Hx. rewrite Hin.
    destruct (decide (i = length pre)) as [-> | Hne].
    + rewrite lookup_app_r, Nat.sub_diag in Hx by lia. injection Hx as <-.
      apply list_lookup_insert_eq. lia.
    + assert (i < length pre)%nat.
      { apply lookup_lt_Some in Hx. rewrite length_app in Hx. simpl in Hx. lia. }
      rewrite lookup_app_l in Hx by lia.
      rewrite list_lookup_insert_ne; [apply Hsl; [lia | done] |].
      intros Heq. apply Z2Nat.inj in Heq; try (apply ring_slot_range; lia).
      symmetry in Heq. revert Heq.
      rewrite <- (Z.add_0_l (Z.of_nat i)), <- (Z.add_0_l (Z.of_nat (length pre))).
      apply ring_slot_inj; lia.
Qed.

Lemma written_run N xs : ∀ pre s,
  0 < N → written N pre s →
  (run (Enqueue <$> xs) s).1 = replicate (length xs) (inr None)
  ∧ written N (pre ++ xs) (run (Enqueue <$> xs) s).2.
Proof.
  induction xs as [| x xs IH]; intros pre s HN Hw.
  - simpl. by rewrite app_nil_r.
  - rewrite fmap_cons, run_cons. cbn [fst snd call enqueue overwrite_fifo].
    destruct (written_enqueue N pre s x HN Hw) as (s' & -> & Hw').
    cbn [fst snd].
    destruct (IH (pre ++ [x]) s' HN Hw') as [-> Hw''].
    split; [done |]. by rewrite <- app_assoc in Hw''.
Qed.

(** Reading [m] items in a row from read index [d], when they do not wrap:
    the slots are returned in order and cleared. *)
Lemma overwrite_drain N (m : nat) : ∀ (d : nat) s,
  overwrite_wf N s →
  BufferFixedOverwrite.Iterator.out_index (BufferFixedOverwrite.iter s)
    = Z.of_nat d `mod` N →
  Z.of_nat (d + m) ≤ N →
  Z.of_nat m ≤ BufferFixedOverwrite.size s →
  run (replicate m Dequeue) s =
    (inr <$> take m (drop d (BufferFixedOverwrite.buffer s)),
     {| BufferFixedOverwrite.buffer :=
          take d (BufferFixedOverwrite.buffer s) ++ replicate m None
            ++ drop (d + m) (BufferFixedOverwrite.buffer s);
        BufferFixedOverwrite.iter :=
          BufferFixedOverwrite.Iterator.set_out_index
            (Z.of_nat (d + m) `mod` N) (BufferFixedOverwrite.iter s);
        BufferFixedOverwrite.max_size := BufferFixedOverwrite.max_size s;
        BufferFixedOverwrite.size := BufferFixedOverwrite.size s - Z.of_nat m |}).
Proof.
  induction m as [| m IH]; intros d s Hwf Hout Hdm Hsz.
  - simpl. rewrite Nat.add_0_r, take_drop, <- Hout, Z.sub_0_r.
    by destruct s as [buf [mi i o] mx n].
  - pose proof Hwf as [Hmx Hlen Hmi Hi Ho Hn].
    rewrite Z.mod_small in Hout by lia.
    destruct (lookup_lt_is_Some_2 (BufferFixedOverwrite.buffer s) d)
      as [element Hel]; [lia |].
    change (replicate (S m) Dequeue) with (@Dequeue A :: replicate m Dequeue).
    rewrite run_cons. cbn [fst snd call dequeue overwrite_fifo].
    rewrite (overwrite_dequeue_eq N s element), Hout, Nat2Z.id;
      [| done | lia | by rewrite Hout, Nat2Z.id].
    cbn [fst snd].
    rewrite (IH (S d)); cbn [BufferFixedOverwrite.buffer
      BufferFixedOverwrite.iter BufferFixedOverwrite.size
      BufferFixedOverwrite.max_size].
    + f_equal.
      * rewrite drop_insert_lt by lia.
        by rewrite (drop_S _ element d), firstn_cons.
      * replace (S d + m)%nat with (d + S m)%nat by lia.
        rewrite (take_S_r _ d None) by (apply list_lookup_insert_eq; lia).
        rewrite take_insert_ge by lia.
        rewrite (drop_insert_lt _ (d + S m) d) by lia.
        rewrite <- app_assoc, get_out_eq. cbn [snd].
        destruct (BufferFixedOverwrite.iter s) as [mi i o].
        unfold BufferFixedOverwrite.Iterator.set_out_index. simpl.
        f_equal. lia.
    + pose proof (overwrite_dequeue_wf N s Hwf) as Hwf'.
      rewrite (overwrite_dequeue_eq N s element), Hout, Nat2Z.id in Hwf';
        [done | done | lia | by rewrite Hout, Nat2Z.id].
    + rewrite get_out_eq. cbn [snd]. simpl.
      rewrite Hout, Hmi. case_decide as Hlast.
      * replace (Z.of_nat (S d)) with N by lia. by rewrite Z.mod_same by lia.
      * rewrite Z.mod_small; lia.
    + lia.
    + lia.
Qed.

End OverwriteWriting.

(** X7: on a fresh BufferFixedOverwrite of capacity [N >= 1], calls of
    [enqueue] alone, however many, never move the read index: after the items
    [xs] the read index is 0, the write index is their number modulo [N],
    [size] is their number, and each of the last [N] items sits in the slot
    given by its position modulo [N].  Older items have been overwritten
    without the read index following. *)
Theorem overwrite_writes_in_place {A} (N : Z) (xs : list (option A)) :
  0 < N →
  let s : BufferFixedOverwrite.t A := (run (Enqueue <$> xs) (new N)).2 in
  BufferFixedOverwrite.Iterator.out_index (BufferFixedOverwrite.iter s) = 0
  ∧ BufferFixedOverwrite.Iterator.in_index (BufferFixedOverwrite.iter s)
    = Z.of_nat (length xs) `mod` N
  ∧ BufferFixedOverwrite.size s = Z.of_nat (length xs)
  ∧ ∀ (i : nat) item,
      Z.of_nat (length xs) - N ≤ Z.of_nat i →
      xs !! i = Some item →
      BufferFixedOverwrite.buffer s !! Z.to_nat (Z.of_nat i `mod` N) = Some item.
Proof.
  intros HN s. subst s.
  destruct (written_run N xs [] (BufferFixedOverwrite.init N) HN
              (written_init N HN)) as [_ [Hwf Hin Hout Hsz Hsl]].
  done.
Qed.

Lemma overwrite_writes_in_place_witness :
  let xs := [Some 1; Some 2; Some 3; Some 4; Some 5] in
  let s : BufferFixedOverwrite.t Z := (run (Enqueue <$> xs) (new 3)).2 in
  0 < 3
  ∧ BufferFixedOverwrite.Iterator.out_index (BufferFixedOverwrite.iter s) = 0
  ∧ BufferFixedOverwrite.Iterator.in_index (BufferFixedOverwrite.iter s) = 2
  ∧ BufferFixedOverwrite.size s = 5
  ∧ BufferFixedOverwrite.buffer s !! 0%nat = Some (Some 4).
Proof.
  intros xs s. assert (H3 : 0 < 3) by lia.
  destruct (overwrite_writes_in_place 3 xs H3) as (Ho & Hi & Hn & Hsl).
  split; [exact H3 |]. split; [exact Ho |]. split; [exact Hi |].
  split; [exact Hn |].
  exact (Hsl 3%nat (Some 4) ltac:(simpl; lia) eq_refl).
Defined.

(** X8: a fresh BufferFixedOverwrite of capacity [N >= 1] is a FIFO queue for
    its first batch: up to [N] items enqueued and then dequeued come back in
    the order they went in; and after exactly [N] of them every field is
    again what the constructor set. *)
Theorem overwrite_first_batch_fifo {A} (N : Z) (xs : list (option A)) :
  0 < N → Z.of_nat (length xs) ≤ N →
  let r := run ((Enqueue <$> xs) ++ replicate (length xs) Dequeue)
               (new N : BufferFixedOverwrite.t A) in
  r.1 = replicate (length xs) (inr None) ++ (inr <$> xs)
  ∧ (Z.of_nat (length xs) = N → r.2 = new N).
Proof.
  intros HN Hlen r. subst r.
  rewrite run_app.
  change (new N : BufferFixedOverwrite.t A)
    with (BufferFixedOverwrite.init (A := A) N).
  rewrite <- filled_nil, overwrite_run_filled by (simpl; lia).
  cbn [fst snd app].
  rewrite (overwrite_drain N (length xs) 0);
    [| apply filled_wf; lia | by rewrite Z.mod_0_l by lia | simpl; lia
     | simpl; lia].
  cbn [fst snd]. split.
  - f_equal. unfold filled. cbn [BufferFixedOverwrite.buffer].
    by rewrite drop_0, take_app_length.
  - intros Hfull. unfold filled, BufferFixedOverwrite.init,
      BufferFixedOverwrite.Iterator.init, list_mul,
      BufferFixedOverwrite.Iterator.set_out_index. simpl.
    rewrite Hfull, Z.mod_same, Z.sub_diag by lia.
    rewrite drop_ge by (rewrite length_app, length_replicate; lia).
    rewrite app_nil_r, Nat.sub_0_r, Z.mod_0_l by lia. simpl.
    by replace (Z.to_nat N) with (length xs) by lia.
Qed.

Lemma overwrite_first_batch_fifo_witness :
  let xs := [Some 1; Some 2; Some 3] in
  let r := run ((Enqueue <$> xs) ++ replicate (length xs) Dequeue)
               (new 3 : BufferFixedOverwrite.t Z) in
  (0 < 3 ∧ Z.of_nat (length xs) ≤ 3 ∧ Z.of_nat (length xs) = 3)
  ∧ r.1 = replicate (length xs) (inr None) ++ (inr <$> xs)
  ∧ r.2 = new 3.
Proof.
  intros xs r. assert (H3 : 0 < 3) by lia.
  assert (Hle : Z.of_nat (length xs) ≤ 3) by (simpl; lia).
  destruct (overwrite_first_batch_fifo 3 xs H3 Hle) as [Hr Hs].
  split; [split; [exact H3 | split; [exact Hle | reflexivity]] |].
  split; [exact Hr | exact (Hs eq_refl)].
Defined.

(** X9: what an overflowed BufferFixedOverwrite gives back.  After [k >= N]
    items were enqueued into a fresh buffer of capacity [N >= 1], the [N]
    calls of [dequeue] that follow return the last [N] items, the item at
    position [i] as the dequeue number [i mod N]: the slots in slot order,
    which is the order of arrival only when [k] is a multiple of [N]. *)
Theorem overwrite_overflow_slot_order {A} (N : Z) (xs : list (option A)) :
  0 < N → N ≤ Z.of_nat (length xs) →
  let r := run ((Enqueue <$> xs) ++ replicate (Z.to_nat N) Dequeue)
               (new N : BufferFixedOverwrite.t A) in
  take (length xs) r.1 = replicate (length xs) (inr None)
  ∧ ∀ (i : nat) item,
      Z.of_nat (length xs) - N ≤ Z.of_nat i →
      xs !! i = Some item →
      r.1 !! (length xs + Z.to_nat (Z.of_nat i `mod` N))%nat = Some (inr item).
Proof.
  intros HN Hlen r. subst r.
  rewrite run_app. cbn [fst].
  destruct (written_run N xs [] (BufferFixedOverwrite.init N) HN
              (written_init N HN)) as [Hrs Hw].
  change (new N : BufferFixedOverwrite.t A)
    with (BufferFixedOverwrite.init (A := A) N).
  rewrite Hrs. simpl in Hw.
  destruct Hw as [Hwf Hin Hout Hsz Hsl].
  rewrite (overwrite_drain N (Z.to_nat N) 0);
    [| done | by rewrite Hout, Z.mod_0_l by lia | lia | lia].
  cbn [fst]. split.
  - by rewrite take_app_length' by by rewrite length_replicate.
  - intros i item Hi Hx.
    pose proof (ring_slot_range N (Z.of_nat i) HN) as Hr.
    rewrite lookup_app_r; rewrite length_replicate; [| lia].
    replace (length xs + Z.to_nat (Z.of_nat i `mod` N) - length xs)%nat
      with (Z.to_nat (Z.of_nat i `mod` N)) by lia.
    rewrite list_lookup_fmap, drop_0, lookup_take_lt by lia.
    by rewrite (Hsl i item Hi Hx).
Qed.

Lemma overwrite_overflow_slot_order_witness :
  let xs := [Some 1; Some 2; Some 3; Some 4; Some 5] in
  let r := run ((Enqueue <$> xs) ++ replicate (Z.to_nat 3) Dequeue)
               (new 3 : BufferFixedOverwrite.t Z) in
  (0 < 3 ∧ 3 ≤ Z.of_nat (length xs))
  ∧ r.1 !! 5%nat = Some (inr (Some 4))
  ∧ r.1 !! 6%nat = Some (inr (Some 5))
  ∧ r.1 !! 7%nat = Some (inr (Some 3)).
Proof.
  intros xs r. assert (H3 : 0 < 3) by lia.
  assert (Hle : 3 ≤ Z.of_nat (length xs)) by (simpl; lia).
  destruct (overwrite_overflow_slot_order 3 xs H3 Hle) as [_ Hsl].
  split; [split; [exact H3 | exact Hle] |].
  split; [| split].
  - exact (Hsl 3%nat (Some 4) ltac:(simpl; lia) eq_refl).
  - exact (Hsl 4%nat (Some 5) ltac:(simpl; lia) eq_refl).
  - exact (Hsl 2%nat (Some 3) ltac:(simpl; lia) eq_refl).
Defined.

(** ** BufferFixed and BufferDynamic refuse only when they must *)

(** X10: on a BufferFixed or a BufferDynamic of capacity [N >= 1], after any
    calls on a fresh buffer, [enqueue] returns whenever [size] is not
    [max_size] and adds one to [size], and [dequeue] returns whenever [size]
    is not 0 and takes one from it. *)
Theorem fixed_dynamic_progress {A} (N : Z) (ops : list (op A)) (item : option A) :
  0 < N →
  let sf : BufferFixed.t A := (run ops (new N)).2 in
  let sd : BufferDynamic.t A := (run ops (new N)).2 in
  ((BufferFixed.size sf ≠ BufferFixed.max_size sf →
    ∃ s', BufferFixed.enqueue item sf = (inr tt, s')
          ∧ BufferFixed.size s' = BufferFixed.size sf + 1)
   ∧ (BufferFixed.size sf ≠ 0 →
      ∃ v s', BufferFixed.dequeue sf = (inr v, s')
              ∧ BufferFixed.size s' = BufferFixed.size sf - 1))
  ∧ ((BufferDynamic.size sd ≠ BufferDynamic.max_size sd →
      ∃ s', BufferDynamic.enqueue item sd = (inr tt, s')
            ∧ BufferDynamic.size s' = BufferDynamic.size sd + 1)
     ∧ (BufferDynamic.size sd ≠ 0 →
        ∃ v s', BufferDynamic.dequeue sd = (inr v, s')
                ∧ BufferDynamic.size s' = BufferDynamic.size sd - 1)).
Proof.
  intros HN sf sd. subst sf sd.
  destruct (fixed_run_refines N ops HN) as [_ Hf].
  destruct (dynamic_run_refines N ops HN) as [_ Hd].
  set (q := (queue_run N ops []).2) in *. clearbody q.
  split; split.
  - intros Hroom.
    destruct (fixed_enqueue_ok N q _ item HN Hf) as (s' & Heq & Hrep').
    { destruct Hf. congruence. }
    exists s'. split; [done |].
    destruct Hf, Hrep'. rewrite length_app in *. simpl in *. lia.
  - intros Hsome. destruct q as [| v q].
    { destruct Hf. simpl in *. lia. }
    destruct (fixed_dequeue_ok N q _ v HN Hf) as (s' & Heq & Hrep').
    exists v, s'. split; [done |].
    destruct Hf, Hrep'. simpl in *. lia.
  - intros Hroom.
    destruct (dynamic_enqueue_ok N q _ item HN Hd) as (s' & Heq & Hrep').
    { destruct Hd. congruence. }
    exists s'. split; [done |].
    destruct Hd, Hrep'. rewrite length_app in *. simpl in *. lia.
  - intros Hsome. destruct q as [| v q].
    { destruct Hd. simpl in *. lia. }
    destruct (dynamic_dequeue_ok N q _ v HN Hd) as (s' & Heq & Hrep').
    exists v, s'. split; [done |].
    destruct Hd, Hrep'. simpl in *. lia.
Qed.

Lemma fixed_dynamic_progress_witness :
  let ops := [Enqueue (Some 1); Enqueue (Some 2); Dequeue; Enqueue (Some 3);
              Dequeue] in
  let sf : BufferFixed.t Z := (run ops (new 2)).2 in
  (0 < 2
   ∧ BufferFixed.size sf ≠ BufferFixed.max_size sf
   ∧ BufferFixed.size sf ≠ 0)
  ∧ (∃ s', BufferFixed.enqueue (Some 4) sf = (inr tt, s')
           ∧ BufferFixed.size s' = BufferFixed.size sf + 1)
  ∧ (∃ v s', BufferFixed.dequeue sf = (inr v, s')
             ∧ BufferFixed.size s' = BufferFixed.size sf - 1).
Proof.
  intros ops sf. assert (H2 : 0 < 2) by lia.
  assert (Hroom : BufferFixed.size sf ≠ BufferFixed.max_size sf)
    by (vm_compute; discriminate).
  assert (Hsome : BufferFixed.size sf ≠ 0) by (vm_compute; discriminate).
  destruct (fixed_dynamic_progress 2 ops (Some 4) H2) as [[Henq Hdeq] _].
  split; [split; [exact H2 | split; [exact Hroom | exact Hsome]] |].
  split; [exact (Henq Hroom) | exact (Hdeq Hsome)].
Defined.

(** ** The cursor on its own *)

Section Cursor.
Import BufferFixedOverwrite.

Lemma calls_get_out (n : nat) : ∀ it : Iterator.t,
  0 ≤ Iterator.out_index it ≤ Iterator.max_index it →
  calls n Iterator.get_out it =
    (inr ((λ j : nat,
             (Iterator.out_index it + Z.of_nat j)
               `mod` (Iterator.max_index it + 1)) <$> seq 0 n),
     Iterator.set_out_index
       ((Iterator.out_index it + Z.of_nat n) `mod` (Iterator.max_index it + 1))
       it).
Proof.
  induction n as [| n IH]; intros [mi i o] Ho; simpl in Ho.
  - unfold Iterator.set_out_index. simpl.
    by rewrite Z.add_0_r, Z.mod_small by lia.
  - cbn [calls]. unfold mbind at 1, M_bind. rewrite get_out_eq.
    cbn [Iterator.out_index Iterator.max_index Iterator.set_out_index].
    assert (Hnext : (if decide (o = mi) then 0 else o + 1) = (o + 1) `mod` (mi + 1)).
    { case_decide as Hlast.
      - subst. by rewrite Z.mod_same by lia.
      - rewrite Z.mod_small; lia. }
    rewrite Hnext.
    pose proof (ring_slot_range (mi + 1) (o + 1) ltac:(lia)) as Hr.
    unfold mbind, M_bind. rewrite IH by (simpl; lia).
    cbn [Iterator.out_index Iterator.max_index Iterator.set_out_index].
    unfold mret, M_ret. f_equal.
    + f_equal. cbn [seq]. rewrite fmap_cons. f_equal.
      * by rewrite Z.add_0_r, Z.mod_small by lia.
      * rewrite <- fmap_S_seq, <- list_fmap_compose.
        apply list_fmap_ext. intros _ j _. simpl.
        rewrite ring_slot_succ. f_equal. lia.
    + unfold Iterator.set_out_index. simpl.
      f_equal. rewrite ring_slot_succ. f_equal. lia.
Qed.

End Cursor.

(** X11: the read cursor goes round.  From a read index within
    [0 .. max_index], [n] calls of [get_out] return the indices that follow
    it one by one, back to 0 after [max_index]; they leave the read index [n]
    places further round and the write index where it was. *)
Theorem get_out_cycles (n : nat) (it : BufferFixedOverwrite.Iterator.t) :
  0 ≤ BufferFixedOverwrite.Iterator.out_index it
    ≤ BufferFixedOverwrite.Iterator.max_index it →
  let M := BufferFixedOverwrite.Iterator.max_index it + 1 in
  let o := BufferFixedOverwrite.Iterator.out_index it in
  calls n BufferFixedOverwrite.Iterator.get_out it =
    (inr ((λ j : nat, (o + Z.of_nat j) `mod` M) <$> seq 0 n),
     BufferFixedOverwrite.Iterator.set_out_index ((o + Z.of_nat n) `mod` M) it).
Proof. intros Ho M o. by apply calls_get_out. Qed.

Lemma get_out_cycles_witness :
  let it := BufferFixedOverwrite.Iterator.mk 2 1 1 in
  0 ≤ 1 ≤ 2
  ∧ calls 5 BufferFixedOverwrite.Iterator.get_out it =
      (inr [1; 2; 0; 1; 2], BufferFixedOverwrite.Iterator.mk 2 1 0).
Proof.
  intros it. assert (Ho : 0 ≤ 1 ≤ 2) by lia.
  split; [exact Ho | exact (get_out_cycles 5 it Ho)].
Defined.

(** ** BufferFixed keeps nothing it has handed out *)

Section FixedIdle.
Context {A : Type}.
Implicit Types (s : BufferFixed.t A) (q : list (option A)) (item : option A).

Lemma fixed_enqueue_eq N q s item :
  0 < N → fixed_rep N q s → Z.of_nat (length q) ≠ N →
  BufferFixed.enqueue item s =
    (inr tt,
     {| BufferFixed.buffer :=
          <[Z.to_nat (BufferFixed.tail s) := item]> (BufferFixed.buffer s);
        BufferFixed.max_size := BufferFixed.max_size s;
        BufferFixed.head := BufferFixed.head s;
        BufferFixed.tail := (BufferFixed.tail s + 1) `mod` N;
        BufferFixed.size := BufferFixed.size s + 1 |}).
Proof.
  intros HN [Hmx Hsz Hb Hh Ht Hlen Hsl] Hne.
  unfold BufferFixed.enqueue, BufferFixed.is_full. run_monad.
  rewrite bool_decide_eq_false_2 by lia. simpl.
  pose proof (ring_slot_range N (BufferFixed.head s + Z.of_nat (length q)) HN).
  rewrite setitem_in_range by lia. simpl.
  rewrite py_mod_nonzero by lia.
  unfold BufferFixed.set_size, BufferFixed.set_tail, BufferFixed.set_head,
    BufferFixed.set_buffer. simpl. by rewrite ?Hmx.
Qed.

Lemma fixed_dequeue_eq N q s item :
  0 < N → fixed_rep N (item :: q) s →
  BufferFixed.dequeue s =
    (inr item,
     {| BufferFixed.buffer :=
          <[Z.to_nat (BufferFixed.head s) := None]> (BufferFixed.buffer s);
        BufferFixed.max_size := BufferFixed.max_size s;
        BufferFixed.head := (BufferFixed.head s + 1) `mod` N;
        BufferFixed.tail := BufferFixed.tail s;
        BufferFixed.size := BufferFixed.size s - 1 |}).
Proof.
  intros HN [Hmx Hsz Hb Hh Ht Hlen Hsl]. simpl in *.
  unfold BufferFixed.dequeue, BufferFixed.is_empty. run_monad.
  rewrite bool_decide_eq_false_2 by lia. simpl.
  pose proof (Hsl 0%nat item eq_refl) as H0. simpl in H0.
  rewrite Z.add_0_r, Z.mod_small in H0 by lia.
  rewrite (getitem_in_range _ _ item) by (done || lia). simpl.
  rewrite setitem_in_range by lia. simpl.
  rewrite py_mod_nonzero by lia.
  unfold BufferFixed.set_size, BufferFixed.set_tail, BufferFixed.set_head,
    BufferFixed.set_buffer. simpl. by rewrite ?Hmx.
Qed.

Lemma fixed_idle_init N : 0 < N → fixed_idle (A := A) N [] (BufferFixed.init N).
Proof.
  intros HN j _ Hj. simpl. unfold list_mul.
  rewrite Z.mod_small by lia. apply lookup_replicate_2. lia.
Qed.

Lemma fixed_idle_enqueue N q s item :
  0 < N → fixed_rep N q s → fixed_idle N q s → Z.of_nat (length q) ≠ N →
  fixed_idle N (q ++ [item]) (BufferFixed.enqueue item s).2.
Proof.
  intros HN Hrep Hidle Hne.
  rewrite (fixed_enqueue_eq N q) by done. cbn [snd].
  destruct Hrep as [Hmx Hsz Hb Hh Ht Hlen Hsl].
  intros j Hj HjN. rewrite length_app in Hj. simpl in *.
  rewrite list_lookup_insert_ne; [apply Hidle; lia |].
  rewrite Ht. intros Heq.
  apply Z2Nat.inj in Heq; try (apply ring_slot_range; lia).
  revert Heq. apply ring_slot_inj; lia.
Qed.

Lemma fixed_idle_dequeue N q s item :
  0 < N → fixed_rep N (item :: q) s → fixed_idle N (item :: q) s →
  fixed_idle N q (BufferFixed.dequeue s).2.
Proof.
  intros HN Hrep Hidle.
  rewrite (fixed_dequeue_eq N q s item) by done. cbn [snd].
  destruct Hrep as [Hmx Hsz Hb Hh Ht Hlen Hsl].
  intros j Hj HjN. simpl in *. rewrite ring_slot_succ.
  destruct (decide (Z.of_nat j + 1 = N)) as [Hlast | Hmore].
  - rewrite Hlast, <- (Z.mul_1_l N) at 1.
    rewrite Z.mod_add, Z.mod_small by lia.
    apply list_lookup_insert_eq. lia.
  - rewrite list_lookup_insert_ne.
    + specialize (Hidle (S j) ltac:(simpl; lia) ltac:(lia)).
      by rewrite Nat2Z.inj_succ, <- Z.add_1_r in Hidle.
    + intros Heq.
      rewrite <- (Z.mod_small (BufferFixed.head s) N) in Heq at 1 by lia.
      apply Z2Nat.inj in Heq; try (apply ring_slot_range; lia).
      revert Heq. rewrite <- (Z.add_0_r (BufferFixed.head s)) at 1.
      apply ring_slot_inj; lia.
Qed.

Lemma fixed_idle_call_sim N (o : op A) q s :
  0 < N → fixed_rep N q s ∧ fixed_idle N q s →
  (call o s).1 = (queue_call N o q).1
  ∧ (fixed_rep N (queue_call N o q).2 (call o s).2
     ∧ fixed_idle N (queue_call N o q).2 (call o s).2).
Proof.
  intros HN [Hrep Hidle].
  destruct (fixed_call_sim N o q s HN Hrep) as [Hr Hrep'].
  split; [done |]. split; [done |].
  destruct o as [item |]; simpl in *.
  - case_decide as Hfull.
    + rewrite fixed_enqueue_full; [done |]. destruct Hrep. congruence.
    + pose proof (fixed_idle_enqueue N q s item HN Hrep Hidle Hfull) as Hi.
      rewrite (fixed_enqueue_eq N q) in * by done. done.
  - destruct q as [| item q].
    + rewrite fixed_dequeue_empty; [done | by destruct Hrep].
    + by apply (fixed_idle_dequeue N q s item).
Qed.

(** Every slot of the ring is some offset from [head]. *)
Lemma ring_slot_offset (N h i : Z) :
  0 < N → 0 ≤ i < N → (h + (i - h) `mod` N) `mod` N = i.
Proof.
  intros HN Hi. rewrite Zplus_mod_idemp_r.
  replace (h + (i - h)) with i by lia. by apply Z.mod_small.
Qed.

End FixedIdle.

(** X12: a BufferFixed of capacity [N >= 1] keeps nothing it has handed out.
    After any calls on a fresh buffer, every slot of the list holds [None] or
    one of the items accepted and not yet returned; once [size] is 0 the list
    is all [None], as the constructor left it. *)
Theorem fixed_slots_waiting_or_none {A} (N : Z) (ops : list (op A)) :
  0 < N →
  let r := run ops (new N : BufferFixed.t A) in
  ∃ waiting,
    accepted ops r.1 = returned ops r.1 ++ waiting
    ∧ (∀ (i : nat) v,
         BufferFixed.buffer r.2 !! i = Some v → v = None ∨ v ∈ waiting)
    ∧ (BufferFixed.size r.2 = 0 →
       BufferFixed.buffer r.2 = replicate (Z.to_nat N) None).
Proof.
  intros HN r. subst r.
  destruct (run_sim N (λ q s, fixed_rep N q s ∧ fixed_idle N q s)
              (λ o q s, fixed_idle_call_sim N o q s HN) ops []
              (BufferFixed.init N))
    as [Hrs [Hrep Hidle]].
  { split; [by apply fixed_rep_init | by apply fixed_idle_init]. }
  change (new N : BufferFixed.t A) with (BufferFixed.init (A := A) N).
  rewrite Hrs.
  pose proof (queue_run_fifo N ops []) as Hfifo. simpl in Hfifo.
  set (q := (queue_run N ops []).2) in *. clearbody q.
  set (s := (run ops (BufferFixed.init N)).2) in *. clearbody s.
  exists q. split; [done |].
  assert (Hslot : ∀ (i : nat) v,
            BufferFixed.buffer s !! i = Some v → v = None ∨ v ∈ q).
  { intros i v Hv.
    destruct Hrep as [Hmx Hsz Hb Hh Ht Hlen Hsl].
    pose proof (lookup_lt_Some _ _ _ Hv) as Hi.
    set (j := Z.to_nat ((Z.of_nat i - BufferFixed.head s) `mod` N)).
    pose proof (ring_slot_range N (Z.of_nat i - BufferFixed.head s) HN) as Hj.
    assert (Hij : Z.to_nat ((BufferFixed.head s + Z.of_nat j) `mod` N) = i).
    { unfold j. rewrite Z2Nat.id by lia.
      rewrite ring_slot_offset by lia. lia. }
    destruct (decide (j < length q)%nat) as [Hlive | Hfree].
    - destruct (lookup_lt_is_Some_2 q j Hlive) as [x Hx].
      specialize (Hsl j x Hx). rewrite Hij, Hv in Hsl. injection Hsl as ->.
      right. by apply (list_elem_of_lookup_2 _ j).
    - specialize (Hidle j ltac:(lia) ltac:(lia)).
      rewrite Hij, Hv in Hidle. injection Hidle as ->. by left. }
  split; [done |].
  intros Hempty. destruct Hrep as [Hmx Hsz Hb Hh Ht Hlen Hsl].
  assert (q = []) as -> by (apply length_zero_iff_nil; lia).
  symmetry. apply replicate_as_Forall. split; [lia |].
  apply Forall_lookup. intros i v Hv.
  destruct (Hslot i v Hv) as [-> | Hin]; [done |].
  by apply elem_of_nil in Hin.
Qed.

Lemma fixed_slots_waiting_or_none_witness :
  let ops := [Enqueue (Some 1); Enqueue (Some 2); Dequeue; Enqueue (Some 3);
              Dequeue; Dequeue] in
  let r := run ops (new 2 : BufferFixed.t Z) in
  (0 < 2 ∧ BufferFixed.size r.2 = 0)
  ∧ BufferFixed.buffer r.2 = replicate (Z.to_nat 2) None.
Proof.
  intros ops r. assert (H2 : 0 < 2) by lia.
  destruct (fixed_slots_waiting_or_none 2 ops H2) as (waiting & _ & _ & Hnone).
  split; [split; [exact H2 | reflexivity] | exact (Hnone eq_refl)].
Defined.
